(** * Verification of the errant Hindi stemmer and of the parallel_to_m2 driver

    Part 1 embeds [errant/hi/hindi_stemmer.py] ([HindiStemmer.stem]);
    Part 2 embeds [errant/commands/parallel_to_m2.py] ([main],
    [process_sentences]) as a state and exception monad over an explicit
    file system with an I/O fault oracle. *)

From Stdlib Require Import String Ascii.
From Stdlib Require Import List ZArith Bool Arith Lia.
Import ListNotations.

(* ------------------------------------------------------------------ *)
(** * Part 1: HindiStemmer.stem *)
(* ------------------------------------------------------------------ *)

Module HindiStemmer.

Local Open Scope Z_scope.

(** A Python [str] is a sequence of Unicode code points; [len], slicing
    and [endswith] all work on code points. *)
Definition word := list Z.

(** [suffixes[1]], the entries of length 1: ो े ू ु ी ि ा *)
Definition suffixes_1 : list word :=
  [[0x094B]; [0x0947]; [0x0942];
   [0x0941]; [0x0940]; [0x093F];
   [0x093E]].

(** [suffixes[2]], the entries of length 2: कर ाओ िए ाई ाए ने नी ना ते ीं ती ता ाँ ां ों ें *)
Definition suffixes_2 : list word :=
  [[0x0915; 0x0930]; [0x093E; 0x0913]; [0x093F; 0x090F];
   [0x093E; 0x0908]; [0x093E; 0x090F]; [0x0928; 0x0947];
   [0x0928; 0x0940]; [0x0928; 0x093E]; [0x0924; 0x0947];
   [0x0940; 0x0902]; [0x0924; 0x0940]; [0x0924; 0x093E];
   [0x093E; 0x0901]; [0x093E; 0x0902]; [0x094B; 0x0902];
   [0x0947; 0x0902]].

(** [suffixes[3]], the entries of length 3: ाकर ाइए ाईं ाया ेगी ेगा ोगी ोगे ाने ाना ाते ाती ाता तीं ाओं ाएं ुओं ुएं ुआं *)
Definition suffixes_3 : list word :=
  [[0x093E; 0x0915; 0x0930]; [0x093E; 0x0907; 0x090F]; [0x093E; 0x0908; 0x0902];
   [0x093E; 0x092F; 0x093E]; [0x0947; 0x0917; 0x0940]; [0x0947; 0x0917; 0x093E];
   [0x094B; 0x0917; 0x0940]; [0x094B; 0x0917; 0x0947]; [0x093E; 0x0928; 0x0947];
   [0x093E; 0x0928; 0x093E]; [0x093E; 0x0924; 0x0947]; [0x093E; 0x0924; 0x0940];
   [0x093E; 0x0924; 0x093E]; [0x0924; 0x0940; 0x0902]; [0x093E; 0x0913; 0x0902];
   [0x093E; 0x090F; 0x0902]; [0x0941; 0x0913; 0x0902]; [0x0941; 0x090F; 0x0902];
   [0x0941; 0x0906; 0x0902]].

(** [suffixes[4]], the entries of length 4: ाएगी ाएगा ाओगी ाओगे एंगी ेंगी एंगे ेंगे ूंगी ूंगा ातीं नाओं नाएं ताओं ताएं ियाँ ियों ियां *)
Definition suffixes_4 : list word :=
  [[0x093E; 0x090F; 0x0917; 0x0940]; [0x093E; 0x090F; 0x0917; 0x093E]; [0x093E; 0x0913; 0x0917; 0x0940];
   [0x093E; 0x0913; 0x0917; 0x0947]; [0x090F; 0x0902; 0x0917; 0x0940]; [0x0947; 0x0902; 0x0917; 0x0940];
   [0x090F; 0x0902; 0x0917; 0x0947]; [0x0947; 0x0902; 0x0917; 0x0947]; [0x0942; 0x0902; 0x0917; 0x0940];
   [0x0942; 0x0902; 0x0917; 0x093E]; [0x093E; 0x0924; 0x0940; 0x0902]; [0x0928; 0x093E; 0x0913; 0x0902];
   [0x0928; 0x093E; 0x090F; 0x0902]; [0x0924; 0x093E; 0x0913; 0x0902]; [0x0924; 0x093E; 0x090F; 0x0902];
   [0x093F; 0x092F; 0x093E; 0x0901]; [0x093F; 0x092F; 0x094B; 0x0902]; [0x093F; 0x092F; 0x093E; 0x0902]].

(** [suffixes[5]], the entries of length 5: ाएंगी ाएंगे ाऊंगी ाऊंगा ाइयाँ ाइयों ाइयां *)
Definition suffixes_5 : list word :=
  [[0x093E; 0x090F; 0x0902; 0x0917; 0x0940]; [0x093E; 0x090F; 0x0902; 0x0917; 0x0947]; [0x093E; 0x090A; 0x0902; 0x0917; 0x0940];
   [0x093E; 0x090A; 0x0902; 0x0917; 0x093E]; [0x093E; 0x0907; 0x092F; 0x093E; 0x0901]; [0x093E; 0x0907; 0x092F; 0x094B; 0x0902];
   [0x093E; 0x0907; 0x092F; 0x093E; 0x0902]].

(** The dictionary literal [suffixes], indexed by [L]; the loop only ever
    looks up the keys 5, 4, 3, 2 and 1. *)
Definition suffixes (L : nat) : list word :=
  match L with
  | 1%nat => suffixes_1
  | 2%nat => suffixes_2
  | 3%nat => suffixes_3
  | 4%nat => suffixes_4
  | 5%nat => suffixes_5
  | _ => []
  end.

(** The order of the outer loop [for L in 5, 4, 3, 2, 1]. *)
Definition lengths : list nat := [5; 4; 3; 2; 1]%nat.

Fixpoint word_eqb (a b : word) : bool :=
  match a, b with
  | [], [] => true
  | x :: a', y :: b' => Z.eqb x y && word_eqb a' b'
  | _, _ => false
  end.

(** [word.endswith(suf)]: false when [suf] is longer than [word]. *)
Definition endswith (w suf : word) : bool :=
  Nat.leb (length suf) (length w) &&
  word_eqb (skipn (length w - length suf) w) suf.

(** [word[:-L]] for [L >= 1]. *)
Definition drop_last (w : word) (L : nat) : word := firstn (length w - L) w.

(** The inner loop [for suf in suffixes[L]: if word.endswith(suf):
    return word[:-L]]; [None] when it falls through. *)
Fixpoint scan (w : word) (L : nat) (sufs : list word) : option word :=
  match sufs with
  | [] => None
  | suf :: sufs' => if endswith w suf then Some (drop_last w L) else scan w L sufs'
  end.

(** The outer loop, guard [len(word) > L + 1] included; [return word]
    after the loop. *)
Fixpoint stem_loop (w : word) (Ls : list nat) : word :=
  match Ls with
  | [] => w
  | L :: Ls' =>
      if Nat.ltb (L + 1) (length w)
      then match scan w L (suffixes L) with
           | Some r => r
           | None => stem_loop w Ls'
           end
      else stem_loop w Ls'
  end.

Definition stem (w : word) : word := stem_loop w lengths.

(** A length [L] is applicable to [w] when the guard holds and some entry
    of [suffixes[L]] is a suffix of [w]. *)
Definition applicable (w : word) (L : nat) : bool :=
  Nat.ltb (L + 1) (length w) && existsb (endswith w) (suffixes L).

End HindiStemmer.

(* ------------------------------------------------------------------ *)
(** * Part 2: the parallel_to_m2 driver *)
(* ------------------------------------------------------------------ *)

Module Driver.

Local Open Scope string_scope.

(** The characters ['\t'] and ['\n']. *)
Definition TAB : string := String (ascii_of_nat 9) EmptyString.
Definition NL : string := String (ascii_of_nat 10) EmptyString.

(** ** Data of the external NLP pipeline (stanfordnlp [Document]) *)

(** Only [token.text] is read by the driver. *)
Record Word := mkWord { text : string }.
Definition Sentence := list Word.
(** [doc.sentences], each with its [sent.words]. *)
Definition Document := list Sentence.

(** ** Python exceptions and results *)

(** An instance of a subclass of [Exception]: its class and [str(e)]. *)
Record exc := mkExc { exc_class : string; exc_msg : string }.

Inductive res (A : Type) : Type :=
| Ok (a : A)
| Raise (e : exc).
Arguments Ok {A} a.
Arguments Raise {A} e.

(** The parsed command line ([-tok], [-lev], [-merge]); the [-orig] and
    [-cor] files are passed to [main] as their lists of lines. *)
Record Args := mkArgs { tok : bool; lev : bool; merge : string }.

(** ** The world: file system, open file objects, and [main]'s locals *)

(** The I/O requests the driver makes of the operating system. *)
Inductive io_req :=
| IoMakedirs (p : string)
| IoOpen (p : string)
| IoWrite (p : string) (data : string)
| IoClose (p : string).

Record St := mkSt {
  (** which requests the operating system refuses with an [OSError] *)
  faults : io_req -> bool;
  (** directories created by [os.makedirs] *)
  dirs : list string;
  (** files: path and the strings written to it since it was opened *)
  files : list (string * list string);
  (** the file objects ever opened, by creation index: path, still open *)
  handles : list (string * bool);
  (** [error_count], a [Counter], in insertion order *)
  error_count : list (string * nat);
  (** [out_files] (named [out_m2] in [process_sentences]), in insertion
      order: file name and its [.m2], [.src], [.trg] file objects *)
  out_files : list (string * (nat * nat * nat));
  (** lines printed to stdout *)
  stdout : list string }.

Definition set_dirs (s : St) d :=
  mkSt (faults s) d (files s) (handles s) (error_count s) (out_files s) (stdout s).
Definition set_files (s : St) f :=
  mkSt (faults s) (dirs s) f (handles s) (error_count s) (out_files s) (stdout s).
Definition set_handles (s : St) h :=
  mkSt (faults s) (dirs s) (files s) h (error_count s) (out_files s) (stdout s).
Definition set_error_count (s : St) c :=
  mkSt (faults s) (dirs s) (files s) (handles s) c (out_files s) (stdout s).
Definition set_out_files (s : St) o :=
  mkSt (faults s) (dirs s) (files s) (handles s) (error_count s) o (stdout s).
Definition set_stdout (s : St) o :=
  mkSt (faults s) (dirs s) (files s) (handles s) (error_count s) (out_files s) o.

(** ** Python dicts with string keys, in insertion order *)

Fixpoint lookup {A} (k : string) (m : list (string * A)) : option A :=
  match m with
  | [] => None
  | (k', v) :: m' => if String.eqb k k' then Some v else lookup k m'
  end.

(** [d[k] = v]: in place when [k] is present, appended otherwise. *)
Fixpoint insert {A} (k : string) (v : A) (m : list (string * A)) : list (string * A) :=
  match m with
  | [] => [(k, v)]
  | (k', v') :: m' => if String.eqb k k' then (k', v) :: m' else (k', v') :: insert k v m'
  end.

(** [counter[k]], 0 for a missing key. *)
Definition counter_get (k : string) (c : list (string * nat)) : nat :=
  match lookup k c with Some n => n | None => 0 end.

(** The strings written to the file at [p] ([[]] when it does not exist). *)
Definition contents (p : string) (s : St) : list string :=
  match lookup p (files s) with Some c => c | None => [] end.

Fixpoint update_nth {A} (n : nat) (x : A) (l : list A) : list A :=
  match n, l with
  | _, [] => []
  | 0, _ :: l' => x :: l'
  | S n', y :: l' => y :: update_nth n' x l'
  end.

(** ** A state and exception monad: an exception keeps the state reached *)

Definition M (A : Type) := St -> res A * St.

Definition ret {A} (a : A) : M A := fun s => (Ok a, s).
Definition raise {A} (e : exc) : M A := fun s => (Raise e, s).
Definition bind {A B} (m : M A) (k : A -> M B) : M B :=
  fun s => match m s with
           | (Ok a, s') => k a s'
           | (Raise e, s') => (Raise e, s')
           end.
Definition lift {A} (r : res A) : M A := fun s => (r, s).
Definition gets {A} (f : St -> A) : M A := fun s => (Ok (f s), s).

Declare Scope py_scope.
Delimit Scope py_scope with py.
Notation "'let*' x ':=' m 'in' k" := (bind m (fun x => k))
  (at level 200, x name, m at level 100, k at level 200) : py_scope.
Notation "m ;; k" := (bind m (fun _ => k))
  (at level 100, k at level 200, right associativity) : py_scope.
Local Open Scope py_scope.

(** [try: m except Exception as e: h(e)] *)
Definition try_except {A} (m : M A) (h : exc -> M A) : M A :=
  fun s => match m s with
           | (Raise e, s') => h e s'
           | r => r
           end.

(** [try: m finally: fin]; an exception of [fin] replaces the outcome of [m]. *)
Definition try_finally {A} (m : M A) (fin : M unit) : M A :=
  fun s => match m s with
           | (r, s') => match fin s' with
                        | (Ok _, s'') => (r, s'')
                        | (Raise e, s'') => (Raise e, s'')
                        end
           end.

(** [for x in xs: body(x)] *)
Fixpoint for_ {A} (xs : list A) (body : A -> M unit) : M unit :=
  match xs with
  | [] => ret tt
  | x :: xs' => body x ;; for_ xs' body
  end.

(** ** Operating-system primitives *)

Definition oserror (p : string) : exc :=
  mkExc "OSError" ("[Errno 5] Input/output error: '" ++ p ++ "'").

(** [print(msg)] *)
Definition print (msg : string) : M unit :=
  fun s => (Ok tt, set_stdout s (app (stdout s) [msg])).

(** [os.makedirs(p, exist_ok=True)]; the parent ["out"] that it also
    creates is not recorded. *)
Definition makedirs (p : string) : M unit :=
  fun s => if faults s (IoMakedirs p) then (Raise (oserror p), s)
           else (Ok tt, set_dirs s (if existsb (String.eqb p) (dirs s) then dirs s
                                    else app (dirs s) [p])).

(** [open(p, 'w')]: creates or truncates the file, returns a new file object. *)
Definition open_w (p : string) : M nat :=
  fun s => if faults s (IoOpen p) then (Raise (oserror p), s)
           else (Ok (length (handles s)),
                 set_handles (set_files s (insert p [] (files s)))
                             (app (handles s) [(p, true)])).

(** [f.write(data)] *)
Definition write (h : nat) (data : string) : M unit :=
  fun s => match nth_error (handles s) h with
           | None => (Raise (mkExc "NameError" "no such file object"), s)
           | Some (p, false) =>
               (Raise (mkExc "ValueError" "I/O operation on closed file."), s)
           | Some (p, true) =>
               if faults s (IoWrite p data) then (Raise (oserror p), s)
               else (Ok tt, set_files s (insert p (app (contents p s) [data]) (files s)))
           end.

(** [f.close()]: a no-op on a closed file; when flushing fails the file is
    still closed and the error is raised. *)
Definition close (h : nat) : M unit :=
  fun s => match nth_error (handles s) h with
           | None => (Raise (mkExc "NameError" "no such file object"), s)
           | Some (p, false) => (Ok tt, s)
           | Some (p, true) =>
               let s' := set_handles s (update_nth h (p, false) (handles s)) in
               if faults s (IoClose p) then (Raise (oserror p), s') else (Ok tt, s')
           end.

(** ** String helpers *)

(** [s.replace(":", "_")] *)
Fixpoint str_replace_colon (s : string) : string :=
  match s with
  | EmptyString => EmptyString
  | String c s' =>
      String (if Ascii.eqb c ":"%char then "_"%char else c) (str_replace_colon s')
  end.

(** [os.path.join(a, b)] for a relative [b] (labels are never absolute). *)
Definition path_join (a b : string) : string := a ++ "/" ++ b.

(** [sep.join(l)] *)
Fixpoint join (sep : string) (l : list string) : string :=
  match l with
  | [] => EmptyString
  | [x] => x
  | x :: l' => x ++ sep ++ join sep l'
  end.

(** [str(n)] for a non-negative [int]. *)
Fixpoint str_nat_aux (fuel n : nat) (acc : string) : string :=
  match fuel with
  | 0 => acc
  | S fuel' =>
      let acc' := String (ascii_of_nat (48 + n mod 10)) acc in
      if Nat.ltb n 10 then acc' else str_nat_aux fuel' (n / 10) acc'
  end.
Definition str_nat (n : nat) : string := str_nat_aux (S n) n EmptyString.

(** [zip( *files)]: stops at the shortest file. *)
Fixpoint heads {A} (ls : list (list A)) : option (list A * list (list A)) :=
  match ls with
  | [] => Some ([], [])
  | [] :: _ => None
  | (x :: xs) :: ls' =>
      match heads ls' with
      | Some (hs, ts) => Some (x :: hs, xs :: ts)
      | None => None
      end
  end.
Fixpoint zip_aux {A} (fuel : nat) (ls : list (list A)) : list (list A) :=
  match fuel with
  | 0 => []
  | S fuel' =>
      match heads ls with
      | Some (hs, ts) => hs :: zip_aux fuel' ts
      | None => []
      end
  end.
Definition zip_lines {A} (ls : list (list A)) : list (list A) :=
  match ls with
  | [] => []
  | l :: _ => zip_aux (length l) ls
  end.

(** ** The collaborators the driver calls *)

(** [errant.annotator.Annotator]: [parse(line, tok)] and
    [annotate(orig, cor, lev, merge)], either of which may raise. *)
Class Annotator (Edit : Type) := {
  parse : string -> bool -> res Document;
  annotate : Document -> Document -> bool -> string -> res (list Edit) }.

(** The edit objects: [edit.type], [edit.to_m2(cor_id)], [edit.to_srctrg()]. *)
Class EditOps (Edit : Type) := {
  edit_type : Edit -> string;
  to_m2 : Edit -> nat -> string;
  to_srctrg : Edit -> string * string }.

Section Code.
Context {Edit : Type} `{Annotator Edit} `{EditOps Edit}.

(** [error_count[label] += 1] *)
Definition incr_count (label : string) : M unit :=
  fun s => (Ok tt, set_error_count s
                     (insert label (S (counter_get label (error_count s))) (error_count s))).

(** [out_m2[file_name] = (f0, f1, f2)] *)
Definition set_out (file_name : string) (fs : nat * nat * nat) : M unit :=
  fun s => (Ok tt, set_out_files s (insert file_name fs (out_files s))).

(** [if file_name not in out_m2: os.makedirs(...); out_m2[file_name] =
    open(... + ".m2", 'w'), open(... + ".src", 'w'), open(... + ".trg", 'w')] *)
Definition open_outputs (file_name : string) : M unit :=
  let* o := gets out_files in
  match lookup file_name o with
  | Some _ => ret tt
  | None =>
      makedirs (path_join "out" file_name) ;;
      let file_path := path_join (path_join "out" file_name) file_name in
      let* h0 := open_w (file_path ++ ".m2") in
      let* h1 := open_w (file_path ++ ".src") in
      let* h2 := open_w (file_path ++ ".trg") in
      set_out file_name (h0, h1, h2)
  end.

(** [outfile = out_m2[file_name]] and the five writes of one edit. *)
Definition write_edit (temp1 : list Word) (cor_id : nat) (edit : Edit)
    (file_name : string) : M unit :=
  let* o := gets out_files in
  match lookup file_name o with
  | None => raise (mkExc "KeyError" file_name)
  | Some (h0, h1, h2) =>
      write h0 (join " " ("S" :: map text temp1) ++ NL) ;;
      write h0 (to_m2 edit cor_id ++ NL) ;;
      write h0 NL ;;
      match to_srctrg edit with
      | (src, trg) => write h1 (src ++ NL) ;; write h2 (trg ++ NL)
      end
  end.

(** The body of [for edit in edits:] in [process_sentences]. *)
Definition process_edit (temp1 : list Word) (cor_id : nat) (edit : Edit) : M unit :=
  incr_count (edit_type edit) ;;
  let file_name := str_replace_colon (edit_type edit) in
  open_outputs file_name ;;
  write_edit temp1 cor_id edit file_name.

(** The body of [for cor_id, cor in enumerate(cors):], with its
    [try ... except Exception]. *)
Definition process_cor (temp1 : list Word) (orig : Document) (args : Args)
    (cor_id : nat) (cor : Document) : M unit :=
  try_except
    (let* edits := lift (annotate orig cor (lev args) (merge args)) in
     for_ edits (process_edit temp1 cor_id))
    (fun e => print ("Failed to align texts: " ++ exc_msg e)).

Definition process_sentences (orig : Document) (cors : list Document) (args : Args)
  : M unit :=
  let temp1 := concat orig in
  for_ (combine (seq 0 (length cors)) cors)
       (fun ic => process_cor temp1 orig args (fst ic) (snd ic)).

(** [tuple(annotator.parse(line, args.tok) for line in lines)] *)
Fixpoint parse_all (tk : bool) (lines : list string) : res (list Document) :=
  match lines with
  | [] => Ok []
  | line :: lines' =>
      match parse line tk with
      | Raise e => Raise e
      | Ok d => match parse_all tk lines' with
                | Raise e => Raise e
                | Ok ds => Ok (d :: ds)
                end
      end
  end.

(** The body of [for lines in zip( *files):] in [main], with its
    [try ... except Exception]. *)
Definition process_group (args : Args) (lines : list string) : M unit :=
  try_except
    (let* docs := lift (parse_all (tok args) lines) in
     match docs with
     | d0 :: ds => process_sentences d0 ds args
     | [] => raise (mkExc "IndexError" "tuple index out of range")
     end)
    (fun e => print ("Failed to process line: " ++ exc_msg e)).

(** The [finally] clause: close every file object of [out_files]. *)
Definition close_all : M unit :=
  let* o := gets out_files in
  for_ o (fun kv => match kv with
                    | (_, (h0, h1, h2)) => for_ [h0; h1; h2] close
                    end).

(** [with open('error_file', 'w') as error_file: for key in error_count:
    error_file.write(str(key) + '\t' + str(error_count[key]))] *)
Definition write_error_file : M unit :=
  let* h := open_w "error_file" in
  try_finally
    (let* c := gets error_count in
     for_ c (fun kv => write h (fst kv ++ TAB ++ str_nat (snd kv))))
    (close h).

(** [error_count = Counter()], [out_files = {}] *)
Definition reset_locals : M unit :=
  fun s => (Ok tt, set_out_files (set_error_count s []) []).

(** [main], given the lines of the [-orig] file and of the [-cor] files. *)
Definition main (args : Args) (orig_lines : list string)
    (cor_lines : list (list string)) : M unit :=
  print "Loading resources..." ;;
  reset_locals ;;
  print "Processing parallel files..." ;;
  try_finally (for_ (zip_lines (orig_lines :: cor_lines)) (process_group args))
              close_all ;;
  write_error_file.

End Code.

(** A fresh process on a file system whose refusals are [fs]. *)
Definition init (fs : io_req -> bool) : St := mkSt fs [] [] [] [] [] [].

Definition no_faults : io_req -> bool := fun _ => false.

(** The lines of a file's text, as [str.splitlines()] gives them. *)
Fixpoint split_lines_aux (s : string) (cur : string) : list string :=
  match s with
  | EmptyString => if String.eqb cur EmptyString then [] else [cur]
  | String c s' =>
      if Ascii.eqb c (ascii_of_nat 10) then cur :: split_lines_aux s' EmptyString
      else split_lines_aux s' (cur ++ String c EmptyString)
  end.
Definition file_lines (p : string) (s : St) : list string :=
  split_lines_aux (String.concat EmptyString (contents p s)) EmptyString.

End Driver.

(* ------------------------------------------------------------------ *)
(** * [main] reading its input files lazily *)
(* ------------------------------------------------------------------ *)

(** [for lines in zip( *files):] reads one line of every input file per
    iteration, and it does so outside the per-group [try ... except]: a
    read that raises (a [UnicodeDecodeError] for bytes that are not valid
    in the file's encoding) goes to the [finally] clause and out of
    [main].  [Driver.main] is this program on input files that all read to
    their end ([DriverStreamFacts.main_clean]). *)
Module DriverStream.
Import Driver.
Local Open Scope string_scope.
Local Open Scope py_scope.

(** An input file opened for reading in text mode, as its iterator
    delivers it: the lines it yields, then either the end of the file
    ([None]) or the exception that the next read raises ([Some e]). *)
Record infile := mkIn { in_lines : list string; in_end : option exc }.

(** A file that reads to its end. *)
Definition clean (l : list string) : infile := mkIn l None.

(** One step of [zip( *files)]: [next()] on each file in turn; the first
    exhausted file ends the iteration, an exception of a read propagates. *)
Fixpoint zip_next (fs : list infile) : res (option (list string * list infile)) :=
  match fs with
  | [] => Ok (Some ([], []))
  | f :: fs' =>
      match in_lines f with
      | [] => match in_end f with
              | None => Ok None
              | Some e => Raise e
              end
      | x :: xs =>
          match zip_next fs' with
          | Ok (Some (hs, ts)) => Ok (Some (x :: hs, mkIn xs (in_end f) :: ts))
          | Ok None => Ok None
          | Raise e => Raise e
          end
      end
  end.

Section Code.
Context {Edit : Type} `{Annotator Edit} `{EditOps Edit}.

(** [for lines in zip( *files): <body>], the body being
    [Driver.process_group]; [fuel] bounds the iterations (each one takes a
    line of the first file). *)
Fixpoint for_zip_aux (args : Args) (fuel : nat) (fs : list infile) : M unit :=
  match fuel with
  | 0 => ret tt
  | S fuel' =>
      match zip_next fs with
      | Raise e => raise e
      | Ok None => ret tt
      | Ok (Some (lines, fs')) => process_group args lines ;; for_zip_aux args fuel' fs'
      end
  end.
Definition for_zip (args : Args) (fs : list infile) : M unit :=
  match fs with
  | [] => ret tt
  | f :: _ => for_zip_aux args (S (length (in_lines f))) fs
  end.

(** [main], given the opened [-orig] file and [-cor] files. *)
Definition main (args : Args) (orig : infile) (cors : list infile) : M unit :=
  print "Loading resources..." ;;
  reset_locals ;;
  print "Processing parallel files..." ;;
  try_finally (for_zip args (orig :: cors)) close_all ;;
  write_error_file.

End Code.

End DriverStream.

(* ------------------------------------------------------------------ *)
(** * Vocabulary for the driver's properties *)
(* ------------------------------------------------------------------ *)

Module DriverSpec.
Import Driver.
Local Open Scope string_scope.

(** The names the driver derives from a file name [F] (a label with its
    colons replaced). *)
Definition out_dir (F : string) : string := path_join "out" F.
Definition file_path (F : string) : string := path_join (path_join "out" F) F.
Definition m2_path (F : string) : string := file_path F ++ ".m2".
Definition src_path (F : string) : string := file_path F ++ ".src".
Definition trg_path (F : string) : string := file_path F ++ ".trg".

(** The source line [" ".join(["S"] + [token.text for token in temp1]) + "\n"]. *)
Definition s_line (temp1 : list Word) : string := join " " ("S" :: map text temp1) ++ NL.

(** No request to the operating system is refused. *)
Definition fault_free (s : St) : Prop := forall r, faults s r = false.

(** Every entry of [out_files] holds open file objects on its three paths. *)
Definition handles_ok (s : St) : Prop :=
  forall F h0 h1 h2, lookup F (out_files s) = Some (h0, h1, h2) ->
    nth_error (handles s) h0 = Some (m2_path F, true) /\
    nth_error (handles s) h1 = Some (src_path F, true) /\
    nth_error (handles s) h2 = Some (trg_path F, true).

Definition file_exists (p : string) (s : St) : Prop :=
  exists c, lookup p (files s) = Some c.

(** [I] holds after [m] whenever it holds before, whatever [m] returns. *)
Definition Pres (I : St -> Prop) {A} (m : M A) : Prop := forall s, I s -> I (snd (m s)).

(** [s] differs from [s0] at most in its file objects and in the file
    ['error_file']. *)
Definition keeps (s0 s : St) : Prop :=
  faults s = faults s0 /\ dirs s = dirs s0 /\ error_count s = error_count s0 /\
  out_files s = out_files s0 /\
  forall p, p <> "error_file" -> lookup p (files s) = lookup p (files s0).

Section Blocks.
Context {Edit : Type} `{Annotator Edit} `{EditOps Edit}.

(** The three lines written to a [.m2] file for one edit. *)
Definition m2_block (temp1 : list Word) (e : Edit) (cor_id : nat) : list string :=
  [s_line temp1; to_m2 e cor_id ++ NL; NL].

(** A block comes from an edit [e] that [annotate] returned for some
    original document [orig], and its source line lists [orig]'s tokens. *)
Definition block_of_run (args : Args) (b : list Word * Edit * nat) : Prop :=
  match b with
  | (temp1, e, _) =>
      exists orig cor edits, temp1 = concat orig /\
        annotate orig cor (lev args) (merge args) = Ok edits /\ In e edits
  end.

Definition m2_text (bl : list (list Word * Edit * nat)) : list string :=
  flat_map (fun b => match b with (t, e, c) => m2_block t e c end) bl.

(** Invariant of the processing loop of a fault-free run: file objects
    well formed; every counted label has its entry in [out_files]; every
    [.m2] file belongs to an entry; every entry has its directory and
    three files, and its [.m2] file is a sequence of complete blocks. *)
Definition loop_inv (args : Args) (s : St) : Prop :=
  fault_free s /\ handles_ok s /\
  (forall l n, In (l, n) (error_count s) ->
     exists hs, lookup (str_replace_colon l) (out_files s) = Some hs) /\
  (forall F, file_exists (m2_path F) s -> exists hs, lookup F (out_files s) = Some hs) /\
  (forall F hs, lookup F (out_files s) = Some hs ->
     In (out_dir F) (dirs s) /\ file_exists (m2_path F) s /\
     file_exists (src_path F) s /\ file_exists (trg_path F) s /\
     exists bl, Forall (block_of_run args) bl /\ contents (m2_path F) s = m2_text bl).

End Blocks.

(** Every file object still open is one of the three of an entry of
    [out_files]. *)
Definition open_inv (s : St) : Prop :=
  forall i p, nth_error (handles s) i = Some (p, true) ->
    exists F h0 h1 h2, lookup F (out_files s) = Some (h0, h1, h2) /\
                       (i = h0 \/ i = h1 \/ i = h2).

(** The sum of the counts of the labels whose file name is [F]. *)
Definition label_total (F : string) (c : list (string * nat)) : nat :=
  fold_right (fun kv acc => if String.eqb (str_replace_colon (fst kv)) F
                            then snd kv + acc else acc) 0 c.

(** The line [main] writes to ['error_file'] for one entry of [error_count]. *)
Definition error_line (kv : string * nat) : string := fst kv ++ TAB ++ str_nat (snd kv).

(** Every entry of [out_files] refers to file objects that exist. *)
Definition out_valid (s : St) : Prop :=
  forall F h0 h1 h2, In (F, (h0, h1, h2)) (out_files s) ->
    h0 < length (handles s) /\ h1 < length (handles s) /\ h2 < length (handles s).

(** From [s] to [s'] file objects were only closed: none was opened or
    reopened, none disappeared, and [out_files] is unchanged. *)
Definition closes_only (s s' : St) : Prop :=
  faults s' = faults s /\ out_files s' = out_files s /\
  (forall i p, nth_error (handles s') i = Some (p, true) -> nth_error (handles s) i = Some (p, true)) /\
  (forall i p, nth_error (handles s) i = Some (p, false) -> nth_error (handles s') i = Some (p, false)) /\
  (forall i, nth_error (handles s) i <> None -> nth_error (handles s') i <> None).

(** Each entry's [.src] and [.trg] files received one write per edit
    counted under the labels of its file name, and its [.m2] file three. *)
Definition cnt_inv (s : St) : Prop :=
  forall F hs, lookup F (out_files s) = Some hs ->
    length (contents (src_path F) s) = label_total F (error_count s) /\
    length (contents (trg_path F) s) = label_total F (error_count s) /\
    length (contents (m2_path F) s) = 3 * label_total F (error_count s).

(** File objects and [out_files] as the fault-free steps leave them. *)
Definition hinv (s : St) : Prop := fault_free s /\ open_inv s /\ out_valid s.

Section Run.
Context {Edit : Type} `{Annotator Edit} `{EditOps Edit}.

(** Invariant of the processing loop of a fault-free run, with the file
    objects and the write counts. *)
Definition run_inv (args : Args) (s : St) : Prop :=
  loop_inv args s /\ open_inv s /\ out_valid s /\ cnt_inv s.

End Run.

End DriverSpec.

(* ------------------------------------------------------------------ *)
(** * A concrete annotator for running the driver *)
(* ------------------------------------------------------------------ *)

Module Scenario.
Import Driver.
Local Open Scope string_scope.

(** Every line is one token; every token of a corrected line is an edit
    whose type is the token's text; the line "BAD" fails to parse. *)
#[export] Instance annotator : Annotator string := {
  parse := fun line _ =>
    if String.eqb line "BAD" then Raise (mkExc "ValueError" "cannot parse")
    else Ok [[mkWord line]];
  annotate := fun _ cor _ _ => Ok (map text (concat cor)) }.

#[export] Instance edit_ops : EditOps string := {
  edit_type := fun e => e;
  to_m2 := fun e cor_id =>
    "A 0 1|||" ++ e ++ "|||x|||REQUIRED|||-NONE-|||" ++ str_nat cor_id;
  to_srctrg := fun _ => ("x", "y") }.

Definition args : Args := mkArgs false false "rules".

(** The operating system refuses to open the file at [p]. *)
Definition open_refused (p : string) : io_req -> bool :=
  fun r => match r with IoOpen q => String.eqb q p | _ => false end.

(** What reading bytes that are not valid UTF-8 raises, for an [-orig]
    file whose second line holds the byte [0xff] in the second 8192-byte
    chunk that the text layer decodes. *)
Definition decode_error : exc :=
  mkExc "UnicodeDecodeError"
        "'utf-8' codec can't decode byte 0xff in position 810: invalid start byte".

End Scenario.

(* ------------------------------------------------------------------ *)
(** * Vocabulary for the stemmer's properties *)
(* ------------------------------------------------------------------ *)

Module StemmerSpec.
Import HindiStemmer.
Local Open Scope Z_scope.

(** A code point of the Unicode block Devanagari, U+0900 to U+097F. *)
Definition devanagari (c : Z) : bool := (0x0900 <=? c) && (c <=? 0x097F).

End StemmerSpec.

(* ------------------------------------------------------------------ *)
(** * Properties of HindiStemmer.stem *)
(* ------------------------------------------------------------------ *)

Module StemmerFacts.
Import HindiStemmer.

Lemma scan_spec (w : word) (L : nat) (sufs : list word) :
  scan w L sufs = if existsb (endswith w) sufs then Some (drop_last w L) else None.
Proof.
  induction sufs as [|suf sufs IH]; simpl; [reflexivity|].
  destruct (endswith w suf); simpl; auto.
Qed.

(** The loop written as the chain of tests it performs. *)
Lemma stem_chain (w : word) :
  stem w =
  if applicable w 5 then drop_last w 5 else
  if applicable w 4 then drop_last w 4 else
  if applicable w 3 then drop_last w 3 else
  if applicable w 2 then drop_last w 2 else
  if applicable w 1 then drop_last w 1 else w.
Proof.
  unfold stem, lengths, applicable; cbn [stem_loop].
  rewrite !scan_spec.
  repeat match goal with
         | |- context [Nat.ltb ?a ?b] => destruct (Nat.ltb a b)
         | |- context [existsb ?f ?l] => destruct (existsb f l)
         end; reflexivity.
Qed.

Lemma word_eqb_eq (a b : word) : word_eqb a b = true -> a = b.
Proof.
  revert b; induction a as [|x a IH]; intros [|y b]; simpl; try discriminate; auto.
  intros Hab; apply andb_prop in Hab as [Hxy Hab].
  apply Z.eqb_eq in Hxy; subst; f_equal; auto.
Qed.

Lemma endswith_split (w suf : word) :
  endswith w suf = true -> drop_last w (length suf) ++ suf = w.
Proof.
  unfold endswith, drop_last; intros Hw.
  apply andb_prop in Hw as [_ Hw]; apply word_eqb_eq in Hw.
  rewrite <- Hw at 2. apply firstn_skipn.
Qed.

(** Every entry of [suffixes[L]] has exactly [L] code points. *)
Lemma suffixes_length (L : nat) (suf : word) :
  In L lengths -> In suf (suffixes L) -> length suf = L.
Proof.
  intros HL Hs.
  assert (Hall : forall L, In L lengths ->
                   forallb (fun x => Nat.eqb (length x) L) (suffixes L) = true)
    by (intros L' HL'; simpl in HL'; intuition subst; vm_compute; reflexivity).
  specialize (Hall L HL); rewrite forallb_forall in Hall.
  apply Nat.eqb_eq, Hall, Hs.
Qed.

Lemma length_drop_last (w : word) (L : nat) :
  length (drop_last w L) = length w - L.
Proof. unfold drop_last; rewrite length_firstn; lia. Qed.

Ltac in_lengths := simpl; intuition lia.

(** Conclude with the length [L] just found applicable. *)
Ltac pick_length L :=
  right; exists L; split; [in_lengths|]; split; [assumption|]; split;
  [intros ? HL' Hlt; simpl in HL'; intuition (subst; try lia; auto) | reflexivity].

(** C4: the lengths are tried in the order 5, 4, 3, 2, 1 and the first
    applicable one (guard satisfied and some entry of its list a suffix of
    the word) decides the result: no longer length is applicable when a
    shorter one is stripped, and the word is returned unchanged only when
    no length is applicable. *)
Theorem stem_longest_first (w : word) :
  (stem w = w /\ forall L, In L lengths -> applicable w L = false) \/
  (exists L, In L lengths /\ applicable w L = true /\
     (forall L', In L' lengths -> L < L' -> applicable w L' = false) /\
     stem w = drop_last w L).
Proof.
  rewrite stem_chain.
  destruct (applicable w 5) eqn:A5; [pick_length 5|].
  destruct (applicable w 4) eqn:A4; [pick_length 4|].
  destruct (applicable w 3) eqn:A3; [pick_length 3|].
  destruct (applicable w 2) eqn:A2; [pick_length 2|].
  destruct (applicable w 1) eqn:A1; [pick_length 1|].
  left; split; [reflexivity|].
  intros L HL; simpl in HL; intuition (subst; auto).
Qed.

(** C5: a length [L] is stripped only when the word has more than [L + 1]
    code points, so a stripped result keeps at least 2 of them; and a word
    of at most 2 code points is returned unchanged (the second conjunct is
    [len(word) <= 2 -> stem(word) = word] written as a disjunction). *)
Theorem stem_min_length_guard (w : word) :
  (stem w = w \/
   exists L, In L lengths /\ L + 1 < length w /\ stem w = drop_last w L /\
             2 <= length (stem w)) /\
  (2 < length w \/ stem w = w).
Proof.
  destruct (stem_longest_first w) as [[Hs _] | (L & HL & HA & _ & Hs)].
  - split; [left | right]; exact Hs.
  - unfold applicable in HA; apply andb_prop in HA as [Hg _].
    apply Nat.ltb_lt in Hg.
    assert (1 <= L) by (simpl in HL; intuition lia).
    split.
    + right; exists L; repeat split; auto.
      rewrite Hs, length_drop_last; lia.
    + left; lia.
Qed.

(** C9: [stem(word)] is [word] or [word] with exactly [L] trailing code
    points removed, where those removed code points form a length-[L]
    entry of the table: [stem(word) + suf == word]. *)
Theorem stem_prefix_of_word (w : word) :
  stem w = w \/
  exists L suf, In L lengths /\ In suf (suffixes L) /\ length suf = L /\
                stem w ++ suf = w.
Proof.
  destruct (stem_longest_first w) as [[Hs _] | (L & HL & HA & _ & Hs)];
    [left; exact Hs|right].
  unfold applicable in HA; apply andb_prop in HA as [_ HA].
  apply existsb_exists in HA as [suf [Hin Hend]].
  pose proof (suffixes_length L suf HL Hin) as Hlen.
  exists L, suf; repeat split; auto.
  rewrite Hs, <- Hlen; apply endswith_split, Hend.
Qed.

End StemmerFacts.

(* ------------------------------------------------------------------ *)
(** * Properties of the driver *)
(* ------------------------------------------------------------------ *)

Module DriverFacts.
Import Driver DriverSpec.
Local Open Scope string_scope.
Local Open Scope py_scope.

Lemma lookup_insert_eq {A} k (v : A) m : lookup k (insert k v m) = Some v.
Proof.
  induction m as [|[k' v'] m IH]; simpl; [now rewrite String.eqb_refl|].
  destruct (String.eqb_spec k k'); simpl; [subst; now rewrite String.eqb_refl|].
  apply String.eqb_neq in n; now rewrite n.
Qed.

Lemma lookup_insert_ne {A} k k' (v : A) m :
  k' <> k -> lookup k' (insert k v m) = lookup k' m.
Proof.
  intros Hne; induction m as [|[k0 v0] m IH]; simpl.
  - apply String.eqb_neq in Hne; now rewrite Hne.
  - destruct (String.eqb_spec k k0); simpl.
    + subst. apply String.eqb_neq in Hne; now rewrite Hne.
    + destruct (String.eqb k' k0); auto.
Qed.

Lemma bind_ok {A B} (m : M A) (k : A -> M B) s a s' :
  m s = (Ok a, s') -> bind m k s = k a s'.
Proof. unfold bind; intros ->; reflexivity. Qed.

Lemma write_eq h p d s :
  nth_error (handles s) h = Some (p, true) -> faults s (IoWrite p d) = false ->
  write h d s = (Ok tt, set_files s (insert p (app (contents p s) [d]) (files s))).
Proof. unfold write; intros -> ->; reflexivity. Qed.

Lemma contents_set_files_eq p c s :
  contents p (set_files s (insert p c (files s))) = c.
Proof. unfold contents; simpl; now rewrite lookup_insert_eq. Qed.

Lemma str_length_app (a b : string) : String.length (a ++ b) = String.length a + String.length b.
Proof. induction a; simpl; auto. Qed.

Lemma str_app_cancel_l (a b c : string) : a ++ b = a ++ c -> b = c.
Proof. induction a; simpl; auto. intros Heq; injection Heq; auto. Qed.

Lemma str_app_assoc (a b c : string) : a ++ (b ++ c) = (a ++ b) ++ c.
Proof. induction a; simpl; congruence. Qed.

Lemma str_app_same_length (a b c d : string) :
  String.length a = String.length c -> a ++ b = c ++ d -> a = c /\ b = d.
Proof.
  revert c; induction a as [|x a IH]; intros [|y c] Hl Heq; simpl in *; try lia; auto.
  injection Heq as -> Heq. destruct (IH c ltac:(lia) Heq) as [-> ->]; auto.
Qed.

Lemma file_path_length F : String.length (file_path F) = 2 * String.length F + 5.
Proof. unfold file_path, path_join; rewrite !str_length_app; simpl; lia. Qed.

Lemma m2_src_neq F G : m2_path F <> src_path G.
Proof.
  unfold m2_path, src_path; intros Heq; apply (f_equal String.length) in Heq.
  rewrite !str_length_app, !file_path_length in Heq; simpl in Heq; lia.
Qed.

Lemma m2_trg_neq F G : m2_path F <> trg_path G.
Proof.
  unfold m2_path, trg_path; intros Heq; apply (f_equal String.length) in Heq.
  rewrite !str_length_app, !file_path_length in Heq; simpl in Heq; lia.
Qed.

Lemma src_trg_neq F : src_path F <> trg_path F.
Proof. unfold src_path, trg_path; intros Heq; apply str_app_cancel_l in Heq; discriminate. Qed.

Lemma file_path_inj F G : file_path F = file_path G -> F = G.
Proof.
  intros Heq. assert (Hl : String.length F = String.length G)
    by (apply (f_equal String.length) in Heq; rewrite !file_path_length in Heq; lia).
  unfold file_path, path_join in Heq; rewrite <- !str_app_assoc in Heq.
  apply str_app_cancel_l, str_app_cancel_l in Heq.
  now apply str_app_same_length in Heq as [-> _].
Qed.

Lemma m2_path_inj F G : m2_path F = m2_path G -> F = G.
Proof.
  unfold m2_path; intros Heq; apply file_path_inj.
  apply str_app_same_length in Heq as [-> _]; auto.
  apply (f_equal String.length) in Heq.
  rewrite !str_length_app, !file_path_length in Heq; simpl in Heq.
  rewrite !file_path_length; lia.
Qed.

Lemma path_eq A B x y :
  file_path A ++ x = file_path B ++ y -> String.length x = String.length y -> A = B /\ x = y.
Proof.
  intros Heq Hl.
  assert (Hp : String.length (file_path A) = String.length (file_path B))
    by (apply (f_equal String.length) in Heq; rewrite !str_length_app in Heq; lia).
  apply str_app_same_length in Heq as [Hf ->]; auto.
  split; [apply file_path_inj, Hf | reflexivity].
Qed.

Lemma paths_of_ne A B x y :
  A <> B -> String.length x = String.length y -> file_path A ++ x <> file_path B ++ y.
Proof. intros Hne Hl Heq; apply path_eq in Heq as [? _]; auto. Qed.

Lemma In_insert {A} k k' (v v' : A) m :
  In (k', v') (insert k v m) -> k' = k \/ In (k', v') m.
Proof.
  induction m as [|[k0 v0] m IH]; simpl.
  - intros [E|[]]; injection E; auto.
  - destruct (String.eqb_spec k k0) as [->|Hne]; simpl.
    + intros [E|H]; [injection E; auto | auto].
    + intros [E|H]; [auto | destruct (IH H); auto].
Qed.

Lemma contents_exists p s : contents p s <> [] -> file_exists p s.
Proof. unfold contents, file_exists; destruct (lookup p (files s)); eauto; congruence. Qed.

Lemma m2_text_app {Edit} `{EditOps Edit} bl b : m2_text (app bl [b]) = app (m2_text bl) (match b with (t, e, c) => m2_block t e c end).
Proof. unfold m2_text; rewrite flat_map_app; simpl; rewrite app_nil_r; reflexivity. Qed.

Ltac simpl_st :=
  cbn [fst snd faults dirs files handles error_count out_files stdout
       set_files set_handles set_dirs set_error_count set_out_files set_stdout] in *.

Ltac paths_neq :=
  first [ apply m2_src_neq | apply m2_trg_neq | apply src_trg_neq
        | intro; symmetry in *; first [ eapply m2_src_neq | eapply m2_trg_neq | eapply src_trg_neq ]; eassumption
        | let E := fresh in intro E; symmetry in E; revert E;
          first [ apply m2_src_neq | apply m2_trg_neq | apply src_trg_neq ] ].

Ltac rw_lookup :=
  repeat (simpl_st; first [ rewrite lookup_insert_eq | rewrite lookup_insert_ne by paths_neq ]).

Lemma open_w_eq p s :
  faults s (IoOpen p) = false ->
  open_w p s = (Ok (length (handles s)),
                set_handles (set_files s (insert p [] (files s))) (app (handles s) [(p, true)])).
Proof. unfold open_w; intros ->; reflexivity. Qed.

Lemma makedirs_eq p s :
  faults s (IoMakedirs p) = false ->
  makedirs p s = (Ok tt, set_dirs s (if existsb (String.eqb p) (dirs s) then dirs s
                                     else app (dirs s) [p])).
Proof. unfold makedirs; intros ->; reflexivity. Qed.

Lemma nth_error_app_l {A} (l l' : list A) h x :
  nth_error l h = Some x -> nth_error (app l l') h = Some x.
Proof.
  intros Hx; rewrite nth_error_app1; auto.
  apply nth_error_Some; congruence.
Qed.

Lemma nth_error_snoc {A} (l : list A) x : nth_error (app l [x]) (length l) = Some x.
Proof. rewrite nth_error_app2, Nat.sub_diag; auto. Qed.

Lemma Pres_ret I {A} (a : A) : Pres I (ret a).
Proof. intros s Hs; exact Hs. Qed.

Lemma Pres_raise I {A} e : Pres I (@raise A e).
Proof. intros s Hs; exact Hs. Qed.

Lemma Pres_bind I {A B} (m : M A) (k : A -> M B) :
  Pres I m -> (forall a, Pres I (k a)) -> Pres I (bind m k).
Proof.
  intros Hm Hk s Hs; unfold bind.
  specialize (Hm s Hs); destruct (m s) as [[a|e] s']; simpl in *; auto.
  apply Hk, Hm.
Qed.

Lemma Pres_bind_lift I {A B} (r : res A) (k : A -> M B) :
  (forall a, r = Ok a -> Pres I (k a)) -> Pres I (bind (lift r) k).
Proof.
  intros Hk s Hs; unfold bind, lift.
  destruct r as [a|e]; simpl; auto. apply (Hk a eq_refl), Hs.
Qed.

Lemma Pres_try_except I {A} (m : M A) (h : exc -> M A) :
  Pres I m -> (forall e, Pres I (h e)) -> Pres I (try_except m h).
Proof.
  intros Hm Hh s Hs; unfold try_except.
  specialize (Hm s Hs); destruct (m s) as [[a|e] s']; simpl in *; auto.
  apply Hh, Hm.
Qed.

Lemma Pres_for I {A} (xs : list A) (f : A -> M unit) :
  (forall x, In x xs -> Pres I (f x)) -> Pres I (for_ xs f).
Proof.
  induction xs as [|x xs IH]; intros Hf; simpl; [apply Pres_ret|].
  apply Pres_bind; [apply Hf; left; reflexivity|].
  intros _; apply IH; intros y Hy; apply Hf; right; exact Hy.
Qed.

Lemma Pres_try_finally (I J : St -> Prop) {A} (m : M A) (fin : M unit) s :
  I s -> Pres I m -> (forall s', I s' -> J (snd (fin s'))) ->
  J (snd (try_finally m fin s)).
Proof.
  intros Hs Hm Hfin; unfold try_finally.
  specialize (Hm s Hs); destruct (m s) as [r s']; simpl in Hm.
  specialize (Hfin s' Hm); destruct (fin s') as [[u|e] s'']; exact Hfin.
Qed.

Lemma keeps_refl s : keeps s s.
Proof. repeat split; auto. Qed.

Lemma Pres_keeps_close s0 h : Pres (keeps s0) (close h).
Proof.
  intros s Hs; unfold close.
  destruct (nth_error (handles s) h) as [[p [|]]|]; simpl; auto.
  destruct (faults s (IoClose p)); exact Hs.
Qed.

Lemma Pres_keeps_close_all s0 : Pres (keeps s0) close_all.
Proof.
  unfold close_all; apply Pres_bind; [intros s Hs; exact Hs|]. intros o.
  apply Pres_for; intros [F' [[h0 h1] h2]] _.
  apply Pres_for; intros h _; apply Pres_keeps_close.
Qed.

Lemma error_file_neq_m2 F : m2_path F <> "error_file".
Proof. unfold m2_path, file_path, path_join; simpl; discriminate. Qed.
Lemma error_file_neq_src F : src_path F <> "error_file".
Proof. unfold src_path, file_path, path_join; simpl; discriminate. Qed.
Lemma error_file_neq_trg F : trg_path F <> "error_file".
Proof. unfold trg_path, file_path, path_join; simpl; discriminate. Qed.

Lemma write_error_file_keeps s : keeps s (snd (write_error_file s)).
Proof.
  unfold write_error_file, bind, open_w.
  destruct (faults s (IoOpen "error_file")); [apply keeps_refl|].
  set (h := length (handles s)).
  set (s1 := set_handles (set_files s (insert "error_file" [] (files s)))
                         (app (handles s) [("error_file", true)])).
  assert (K1 : keeps s s1).
  { unfold s1; repeat split; auto. intros p Hp; simpl_st; rewrite lookup_insert_ne; auto. }
  apply (Pres_try_finally
           (fun s' => keeps s s' /\ nth_error (handles s') h = Some ("error_file", true))
           (keeps s)).
  - split; [exact K1|]. apply nth_error_snoc.
  - apply Pres_bind; [intros s' Hs'; exact Hs'|]. intros c.
    apply Pres_for; intros kv _. intros s' [Hk Hh].
    unfold write; rewrite Hh.
    destruct (faults s' _); [split; auto|].
    split; [|exact Hh].
    destruct Hk as (Ef & Ed & Ec & Eo & Ep).
    repeat split; auto. intros p Hp; simpl_st; rewrite lookup_insert_ne by exact Hp; auto.
  - intros s' [Hk _]. apply (Pres_keeps_close s h s' Hk).
Qed.

Section Run.
Context {Edit : Type} `{Annotator Edit} `{EditOps Edit}.

Lemma write_edit_spec temp1 cor_id (e : Edit) F h0 h1 h2 s :
  fault_free s -> handles_ok s -> lookup F (out_files s) = Some (h0, h1, h2) ->
  exists s', write_edit temp1 cor_id e F s = (Ok tt, s') /\
    faults s' = faults s /\ dirs s' = dirs s /\ handles s' = handles s /\
    error_count s' = error_count s /\ out_files s' = out_files s /\
    stdout s' = stdout s /\
    contents (m2_path F) s' = app (contents (m2_path F) s) (m2_block temp1 e cor_id) /\
    contents (src_path F) s' = app (contents (src_path F) s) [fst (to_srctrg e) ++ NL] /\
    contents (trg_path F) s' = app (contents (trg_path F) s) [snd (to_srctrg e) ++ NL] /\
    (forall p, p <> m2_path F -> p <> src_path F -> p <> trg_path F ->
       lookup p (files s') = lookup p (files s)).
Proof.
  intros Hf Hh Hl.
  destruct (Hh _ _ _ _ Hl) as (Hm & Hs & Ht).
  unfold write_edit.
  erewrite bind_ok by reflexivity. cbn [out_files]. rewrite Hl.
  erewrite bind_ok by (apply write_eq; [exact Hm | apply Hf]).
  erewrite bind_ok by (apply write_eq; [exact Hm | apply Hf]).
  erewrite bind_ok by (apply write_eq; [exact Hm | apply Hf]).
  destruct (to_srctrg e) as [src trg] eqn:Hst.
  erewrite bind_ok by (apply write_eq; [exact Hs | apply Hf]).
  erewrite write_eq by (first [exact Ht | apply Hf]).
  eexists; split; [reflexivity|].
  simpl_st; unfold contents; rw_lookup.
  repeat split; try reflexivity.
  - unfold m2_block; rewrite <- !app_assoc; reflexivity.
  - intros p Hp1 Hp2 Hp3; rewrite !lookup_insert_ne by assumption; reflexivity.
Qed.

Lemma open_outputs_present F hs s :
  lookup F (out_files s) = Some hs -> open_outputs F s = (Ok tt, s).
Proof.
  intros Hl; unfold open_outputs.
  erewrite bind_ok by reflexivity. cbn [out_files]. rewrite Hl. reflexivity.
Qed.

Lemma open_outputs_new F s :
  fault_free s -> handles_ok s -> lookup F (out_files s) = None ->
  exists s', open_outputs F s = (Ok tt, s') /\
    faults s' = faults s /\ error_count s' = error_count s /\ stdout s' = stdout s /\
    In (out_dir F) (dirs s') /\ (forall d, In d (dirs s) -> In d (dirs s')) /\
    handles_ok s' /\
    (exists hs, out_files s' = insert F hs (out_files s)) /\
    lookup (m2_path F) (files s') = Some [] /\
    lookup (src_path F) (files s') = Some [] /\
    lookup (trg_path F) (files s') = Some [] /\
    (forall p, p <> m2_path F -> p <> src_path F -> p <> trg_path F ->
       lookup p (files s') = lookup p (files s)).
Proof.
  intros Hf Hh Hl; unfold open_outputs.
  erewrite bind_ok by reflexivity. cbn [out_files]. rewrite Hl.
  erewrite bind_ok by (apply makedirs_eq; apply Hf).
  cbv zeta.
  change (path_join (path_join "out" F) F ++ ".m2") with (m2_path F).
  change (path_join (path_join "out" F) F ++ ".src") with (src_path F).
  change (path_join (path_join "out" F) F ++ ".trg") with (trg_path F).
  erewrite bind_ok by (apply open_w_eq; apply Hf).
  erewrite bind_ok by (apply open_w_eq; apply Hf).
  erewrite bind_ok by (apply open_w_eq; apply Hf).
  eexists; split; [reflexivity|].
  unfold set_out; simpl_st.
  split; [reflexivity|]. split; [reflexivity|]. split; [reflexivity|].
  split.
  { unfold out_dir; destruct (existsb (String.eqb (path_join "out" F)) (dirs s)) eqn:Hd.
    - apply existsb_exists in Hd as [d [Hd Heq]]; apply String.eqb_eq in Heq; subst; auto.
    - apply in_or_app; right; left; reflexivity. }
  split.
  { intros d Hd; destruct (existsb _ _); auto. apply in_or_app; auto. }
  split.
  { intros F' g0 g1 g2 HF'; simpl_st.
    destruct (String.eqb_spec F' F) as [->|Hne].
    - rewrite lookup_insert_eq in HF'; injection HF' as <- <- <-.
      rewrite <- !app_assoc; simpl.
      rewrite !length_app; simpl.
      repeat split; rewrite nth_error_app2 by lia;
        first [ rewrite Nat.sub_diag; reflexivity
              | match goal with |- context [?a + ?k - ?a] =>
                  replace (a + k - a) with k by lia; reflexivity end ].
    - rewrite lookup_insert_ne in HF' by assumption.
      destruct (Hh _ _ _ _ HF') as (A0 & A1 & A2).
      repeat split; repeat apply nth_error_app_l; assumption. }
  split; [eexists; reflexivity|].
  split; [rw_lookup; reflexivity|].
  split; [rw_lookup; reflexivity|].
  split; [rw_lookup; reflexivity|].
  intros p Hp1 Hp2 Hp3; rewrite !lookup_insert_ne by assumption; reflexivity.
Qed.

Lemma process_edit_spec temp1 cor_id (e : Edit) s :
  fault_free s -> handles_ok s ->
  let l := edit_type e in
  let F := str_replace_colon l in
  let base p := match lookup F (out_files s) with Some _ => contents p s | None => [] end in
  exists s', process_edit temp1 cor_id e s = (Ok tt, s') /\
    faults s' = faults s /\ stdout s' = stdout s /\
    error_count s' = insert l (S (counter_get l (error_count s))) (error_count s) /\
    handles_ok s' /\
    (exists hs, lookup F (out_files s') = Some hs) /\
    (forall F', F' <> F -> lookup F' (out_files s') = lookup F' (out_files s)) /\
    (forall d, In d (dirs s) -> In d (dirs s')) /\
    (lookup F (out_files s) = None -> In (out_dir F) (dirs s')) /\
    contents (m2_path F) s' = app (base (m2_path F)) (m2_block temp1 e cor_id) /\
    contents (src_path F) s' = app (base (src_path F)) [fst (to_srctrg e) ++ NL] /\
    contents (trg_path F) s' = app (base (trg_path F)) [snd (to_srctrg e) ++ NL] /\
    (forall p, p <> m2_path F -> p <> src_path F -> p <> trg_path F ->
       lookup p (files s') = lookup p (files s)).
Proof.
  intros Hf Hh l F base.
  unfold process_edit.
  erewrite bind_ok by reflexivity. cbv beta zeta. fold l F.
  set (s1 := set_error_count s (insert l (S (counter_get l (error_count s))) (error_count s))).
  assert (Hf1 : fault_free s1) by exact Hf.
  assert (Hh1 : handles_ok s1) by exact Hh.
  destruct (lookup F (out_files s)) as [hs|] eqn:Hl.
  - erewrite bind_ok by (apply open_outputs_present with (hs := hs); exact Hl).
    destruct hs as [[h0 h1] h2].
    destruct (write_edit_spec temp1 cor_id e F h0 h1 h2 s1 Hf1 Hh1 Hl)
      as (s2 & Hrun & Ef & Ed & Eh & Ec & Eo & Es & Cm & Cs & Ct & Cp).
    exists s2; split; [exact Hrun|].
    split; [exact Ef|]. split; [exact Es|]. split; [exact Ec|].
    split; [unfold handles_ok; rewrite Eo, Eh; exact Hh1|].
    split; [eexists; rewrite Eo; exact Hl|].
    split; [intros F' _; rewrite Eo; reflexivity|].
    split; [intros d Hd; rewrite Ed; exact Hd|].
    split; [intros; discriminate|].
    split; [exact Cm|]. split; [exact Cs|]. split; [exact Ct|].
    exact Cp.
  - destruct (open_outputs_new F s1 Hf1 Hh1 Hl)
      as (s2 & Hrun & Ef & Ec & Es & Hd & Hdm & Hh2 & [hs Ho] & Lm & Ls & Lt & Lp).
    erewrite bind_ok by exact Hrun.
    assert (Hl2 : lookup F (out_files s2) = Some hs) by (rewrite Ho; apply lookup_insert_eq).
    assert (Hf2 : fault_free s2) by (intro r; rewrite Ef; apply Hf).
    destruct hs as [[h0 h1] h2].
    destruct (write_edit_spec temp1 cor_id e F h0 h1 h2 s2 Hf2 Hh2 Hl2)
      as (s3 & Hrun3 & Ef3 & Ed3 & Eh3 & Ec3 & Eo3 & Es3 & Cm & Cs & Ct & Cp).
    exists s3; split; [exact Hrun3|].
    unfold contents in Cm, Cs, Ct; rewrite Lm in Cm; rewrite Ls in Cs; rewrite Lt in Ct.
    split; [rewrite Ef3, Ef; reflexivity|]. split; [rewrite Es3, Es; reflexivity|].
    split; [rewrite Ec3, Ec; reflexivity|].
    split; [unfold handles_ok; rewrite Eo3, Eh3; exact Hh2|].
    split; [eexists; rewrite Eo3; exact Hl2|].
    split; [intros F' Hne; rewrite Eo3, Ho, lookup_insert_ne by assumption; reflexivity|].
    split; [intros d Hd'; rewrite Ed3; apply Hdm, Hd'|].
    split; [intros _; rewrite Ed3; exact Hd|].
    split; [exact Cm|]. split; [exact Cs|]. split; [exact Ct|].
    intros p Hp1 Hp2 Hp3; rewrite Cp, Lp by assumption; reflexivity.
Qed.

Lemma process_edit_inv args orig cor edits (e : Edit) cor_id s :
  annotate orig cor (lev args) (merge args) = Ok edits -> In e edits ->
  loop_inv args s -> loop_inv args (snd (process_edit (concat orig) cor_id e s)).
Proof.
  intros Ha Hin (Hf & Hh & Hc & Hm & Ho).
  destruct (process_edit_spec (concat orig) cor_id e s Hf Hh)
    as (s' & Hrun & Ef & Es & Ec & Hh' & [hsF HF] & Hout & Hdm & Hdn & Cm & Cs & Ct & Cp).
  rewrite Hrun; simpl snd.
  set (F := str_replace_colon (edit_type e)) in *.
  assert (Hdistinct : forall F', F' <> F ->
            lookup (m2_path F') (files s') = lookup (m2_path F') (files s) /\
            lookup (src_path F') (files s') = lookup (src_path F') (files s) /\
            lookup (trg_path F') (files s') = lookup (trg_path F') (files s)).
  { intros F' Hne.
    repeat split; apply Cp;
      first [ apply paths_of_ne; [exact Hne | reflexivity]
            | apply m2_src_neq | apply m2_trg_neq
            | let E := fresh in intro E; symmetry in E; revert E;
              first [apply m2_src_neq | apply m2_trg_neq] ]. }
  assert (Hnonempty : forall l', app l' (m2_block (concat orig) e cor_id) <> []).
  { intros l' E; apply (f_equal (@length string)) in E; rewrite length_app in E; simpl in E; lia. }
  split; [intro r; rewrite Ef; apply Hf|].
  split; [exact Hh'|].
  split.
  { intros l' n Hl'. rewrite Ec in Hl'. apply In_insert in Hl' as [->|Hl'].
    - exists hsF; exact HF.
    - destruct (String.eqb_spec (str_replace_colon l') F) as [E|Hne].
      + rewrite E; exists hsF; exact HF.
      + rewrite Hout by exact Hne. apply (Hc _ _ Hl'). }
  split.
  { intros F' Hex. destruct (String.eqb_spec F' F) as [->|Hne].
    - exists hsF; exact HF.
    - rewrite Hout by exact Hne. apply Hm.
      destruct Hex as [c Hc']; exists c. rewrite <- (proj1 (Hdistinct F' Hne)); exact Hc'. }
  intros F' hs' HF'.
  destruct (String.eqb_spec F' F) as [->|Hne].
  - destruct (lookup F (out_files s)) as [hs0|] eqn:Hl0.
    + destruct (Ho F hs0 Hl0) as (Hd & _ & _ & _ & bl & Hbl & Hcm).
      split; [apply Hdm, Hd|].
      split; [apply contents_exists; rewrite Cm; apply Hnonempty|].
      split; [apply contents_exists; rewrite Cs; intro E; apply (f_equal (@length string)) in E; rewrite length_app in E; simpl in E; lia|].
      split; [apply contents_exists; rewrite Ct; intro E; apply (f_equal (@length string)) in E; rewrite length_app in E; simpl in E; lia|].
      exists (app bl [(concat orig, e, cor_id)]); split.
      * apply Forall_app; split; [exact Hbl|]. constructor; [|constructor].
        simpl; exists orig, cor, edits; auto.
      * rewrite Cm, m2_text_app, Hcm; reflexivity.
    + split; [apply Hdn; reflexivity|].
      split; [apply contents_exists; rewrite Cm; apply Hnonempty|].
      split; [apply contents_exists; rewrite Cs; discriminate|].
      split; [apply contents_exists; rewrite Ct; discriminate|].
      exists [(concat orig, e, cor_id)]; split.
      * constructor; [|constructor]. simpl; exists orig, cor, edits; auto.
      * rewrite Cm; reflexivity.
  - rewrite Hout in HF' by exact Hne.
    destruct (Ho F' hs' HF') as (Hd & Em & Es' & Et & bl & Hbl & Hcm).
    destruct (Hdistinct F' Hne) as (Dm & Ds & Dt).
    split; [apply Hdm, Hd|].
    unfold file_exists; rewrite Dm, Ds, Dt.
    split; [exact Em|]. split; [exact Es'|]. split; [exact Et|].
    exists bl; split; [exact Hbl|]. unfold contents; rewrite Dm; exact Hcm.
Qed.

Lemma Pres_print I msg : (forall s o, I s -> I (set_stdout s o)) -> Pres I (print msg).
Proof. intros HI s Hs; apply HI, Hs. Qed.

Lemma loop_inv_stdout args s o : loop_inv args s -> loop_inv args (set_stdout s o).
Proof. intros Hs; exact Hs. Qed.

Lemma process_cor_inv args orig cor_id cor :
  Pres (loop_inv args) (process_cor (concat orig) orig args cor_id cor).
Proof.
  unfold process_cor.
  apply Pres_try_except.
  - apply Pres_bind_lift; intros edits Ha.
    apply Pres_for; intros e Hin s Hs.
    apply (process_edit_inv args orig cor edits e cor_id s Ha Hin Hs).
  - intros e; apply Pres_print, loop_inv_stdout.
Qed.

Lemma process_sentences_inv args orig cors :
  Pres (loop_inv args) (process_sentences orig cors args).
Proof.
  unfold process_sentences; apply Pres_for; intros ic _; apply process_cor_inv.
Qed.

Lemma process_group_inv args lines : Pres (loop_inv args) (process_group args lines).
Proof.
  unfold process_group; apply Pres_try_except.
  - apply Pres_bind_lift; intros [|d0 ds] _.
    + apply Pres_raise.
    + apply process_sentences_inv.
  - intros e; apply Pres_print, loop_inv_stdout.
Qed.

Lemma keeps_trans s0 s1 s2 : keeps s0 s1 -> keeps s1 s2 -> keeps s0 s2.
Proof.
  intros (A1 & B1 & C1 & D1 & E1) (A2 & B2 & C2 & D2 & E2).
  repeat split; try congruence.
  intros p Hp; rewrite E2, E1 by exact Hp; reflexivity.
Qed.

(** The state after [main]'s loop satisfies the loop invariant, and the
    final state only differs from it in file objects and ['error_file']. *)
Lemma main_final args orig_lines cor_lines :
  exists s3, loop_inv args s3 /\
             keeps s3 (snd (main args orig_lines cor_lines (init no_faults))).
Proof.
  unfold main.
  erewrite bind_ok by reflexivity.
  erewrite bind_ok by reflexivity.
  erewrite bind_ok by reflexivity.
  set (s2 := set_stdout _ _).
  assert (I2 : loop_inv args s2).
  { split; [intro r; reflexivity|].
    split; [intros F h0 h1 h2 E; discriminate|].
    split; [intros l n []|].
    split; [intros F [c E]; discriminate|].
    intros F hs E; discriminate. }
  assert (J : exists s3, loop_inv args s3 /\
                         keeps s3 (snd (try_finally (for_ (zip_lines (orig_lines :: cor_lines))
                                                          (process_group args)) close_all s2))).
  { apply (Pres_try_finally (loop_inv args)
             (fun s4 => exists s3, loop_inv args s3 /\ keeps s3 s4)); [exact I2| |].
    - apply Pres_for; intros lines _; apply process_group_inv.
    - intros s' Hs'; exists s'; split; [exact Hs'|].
      apply (Pres_keeps_close_all s' s'), keeps_refl. }
  unfold bind.
  destruct (try_finally _ close_all s2) as [[u|e] s4]; simpl in J |- *;
    destruct J as (s3 & I3 & K3); exists s3; split; auto.
  apply (keeps_trans _ s4); [exact K3|apply write_error_file_keeps].
Qed.

(** [main]'s loop over line groups that have been read never stops early:
    every group is processed in turn, from the state the previous one
    left, whether parsing or processing it raised or not. *)
Theorem main_loop_processes_every_group (args : Args) (groups : list (list string)) (s : St) :
  for_ groups (process_group args) s =
  (Ok tt, fold_left (fun s lines => snd (process_group args lines s)) groups s).
Proof.
  revert s; induction groups as [|lines groups IH]; intros s; [reflexivity|].
  simpl for_; unfold bind.
  assert (Hg : fst (process_group args lines s) = Ok tt).
  { unfold process_group, try_except.
    destruct (bind _ _ s) as [[[]|e] s']; reflexivity. }
  destruct (process_group args lines s) as [r s'] eqn:E; simpl in Hg; subst r.
  rewrite IH; simpl; rewrite E; reflexivity.
Qed.

(** [process_sentences] always returns normally, whatever the annotator
    and the operating system do: an exception raised for one corrected
    text, including an I/O failure while opening or writing a per-type
    output file, is caught by the per-corrected-text handler and printed,
    and the remaining edits of that corrected text are not written. *)
Theorem process_sentences_returns (orig : Document) (cors : list Document)
    (args : Args) (s : St) :
  fst (process_sentences orig cors args s) = Ok tt.
Proof.
  unfold process_sentences.
  generalize (combine (seq 0 (length cors)) cors) as ics.
  intros ics; revert s; induction ics as [|ic ics IH]; intros s; [reflexivity|].
  simpl for_; unfold bind.
  assert (Hc : forall s0, fst (process_cor (concat orig) orig args (fst ic) (snd ic) s0) = Ok tt).
  { intros s0; unfold process_cor, try_except.
    destruct (bind _ _ s0) as [[[]|e] s']; reflexivity. }
  specialize (Hc s).
  destruct (process_cor _ _ _ _ _ s) as [r s'] eqn:E; simpl in Hc; subst r.
  apply IH.
Qed.

(** C3: after a fault-free run, every label counted in [error_count] has
    its directory [out/F] and its files [out/F/F.m2], [out/F/F.src] and
    [out/F/F.trg], where [F] is the label with [":"] replaced by ["_"]. *)
Theorem per_label_output_files (args : Args) (orig_lines : list string)
    (cor_lines : list (list string)) :
  let s := snd (main args orig_lines cor_lines (init no_faults)) in
  forall l n, In (l, n) (error_count s) ->
    let F := str_replace_colon l in
    In (out_dir F) (dirs s) /\ file_exists (m2_path F) s /\
    file_exists (src_path F) s /\ file_exists (trg_path F) s.
Proof.
  intros s l n Hin F.
  destruct (main_final args orig_lines cor_lines) as (s3 & (_ & _ & Hc & _ & Ho) & (_ & Ed & Ec & _ & Ep)).
  fold s in Ed, Ec, Ep.
  rewrite Ec in Hin. destruct (Hc l n Hin) as [hs Hl].
  destruct (Ho _ _ Hl) as (Hd & Em & Es & Et & _).
  unfold file_exists; rewrite Ed, !Ep by
    first [apply error_file_neq_m2 | apply error_file_neq_src | apply error_file_neq_trg].
  auto.
Qed.

(** C8: after a fault-free run, every [.m2] file is a sequence of
    three-line blocks: the source line ["S"] followed by the space-joined
    tokens of the original sentence the edit was found in, the edit's
    annotation line, and a blank line. *)
Theorem m2_files_are_blocks (args : Args) (orig_lines : list string)
    (cor_lines : list (list string)) :
  let s := snd (main args orig_lines cor_lines (init no_faults)) in
  forall F, file_exists (m2_path F) s ->
    exists bl, Forall (block_of_run args) bl /\ contents (m2_path F) s = m2_text bl.
Proof.
  intros s F Hex.
  destruct (main_final args orig_lines cor_lines) as (s3 & (_ & _ & _ & Hm & Ho) & (_ & _ & _ & _ & Ep)).
  fold s in Ep.
  assert (E : lookup (m2_path F) (files s) = lookup (m2_path F) (files s3))
    by (apply Ep, error_file_neq_m2).
  destruct (Hm F) as [hs Hl].
  { destruct Hex as [c Hc]; exists c; rewrite <- E; exact Hc. }
  destruct (Ho _ _ Hl) as (_ & _ & _ & _ & bl & Hbl & Hcm).
  exists bl; split; [exact Hbl|]. unfold contents; rewrite E; exact Hcm.
Qed.

(** C10: on a fault-free run, processing one edit of type [l] adds exactly
    one to [error_count[l]] and leaves the other counts alone; appends
    exactly the three-line block to the [.m2] file of its type and one
    line each to its [.src] and [.trg] files (on files just created when
    the type is new); touches no other file; and keeps the file objects
    well formed for the next edit. *)
Theorem process_edit_one_block (temp1 : list Word) (cor_id : nat) (e : Edit) (s : St)
    (Hf : fault_free s) (Hh : handles_ok s) :
  let l := edit_type e in
  let F := str_replace_colon l in
  let base p := match lookup F (out_files s) with Some _ => contents p s | None => [] end in
  let r := process_edit temp1 cor_id e s in
  fst r = Ok tt /\
  counter_get l (error_count (snd r)) = S (counter_get l (error_count s)) /\
  (forall l', l' <> l -> counter_get l' (error_count (snd r)) = counter_get l' (error_count s)) /\
  contents (m2_path F) (snd r) = app (base (m2_path F)) (m2_block temp1 e cor_id) /\
  contents (src_path F) (snd r) = app (base (src_path F)) [fst (to_srctrg e) ++ NL] /\
  contents (trg_path F) (snd r) = app (base (trg_path F)) [snd (to_srctrg e) ++ NL] /\
  (forall p, p <> m2_path F -> p <> src_path F -> p <> trg_path F ->
     lookup p (files (snd r)) = lookup p (files s)) /\
  handles_ok (snd r) /\ fault_free (snd r).
Proof.
  intros l F base r.
  destruct (process_edit_spec temp1 cor_id e s Hf Hh)
    as (s' & Hrun & Ef & _ & Ec & Hh' & _ & _ & _ & _ & Cm & Cs & Ct & Cp).
  unfold r; rewrite Hrun; simpl fst; simpl snd.
  split; [reflexivity|].
  split; [unfold counter_get; rewrite Ec, lookup_insert_eq; reflexivity|].
  split; [intros l' Hne; unfold counter_get; rewrite Ec, lookup_insert_ne by exact Hne; reflexivity|].
  split; [exact Cm|]. split; [exact Cs|]. split; [exact Ct|]. split; [exact Cp|].
  split; [exact Hh'|]. intro q; rewrite Ef; apply Hf.
Qed.

End Run.

End DriverFacts.
(* ------------------------------------------------------------------ *)
(** * Concrete runs of the driver *)
(* ------------------------------------------------------------------ *)

Module DriverRuns.
Import Driver DriverSpec Scenario.
Local Open Scope string_scope.

(** C1: a run in which the operating system refuses to open
    [out/R_VERB/R_VERB.m2].  Original lines ["x"; "y"], one corrected
    file with lines ["R:VERB"; "U:DET"]: the first edit's output file
    cannot be opened, yet [main] returns normally, the [R:VERB] edit is
    counted but written nowhere, the second line group is still written
    to [out/U_DET/U_DET.m2], and the failure only shows up as a printed
    message. *)
Lemma io_failure_is_not_fatal :
  let r := main args ["x"; "y"] [["R:VERB"; "U:DET"]]
                (init (open_refused "out/R_VERB/R_VERB.m2")) in
  fst r = Ok tt /\
  counter_get "R:VERB" (error_count (snd r)) = 1 /\
  lookup "out/R_VERB/R_VERB.m2" (files (snd r)) = None /\
  contents "out/U_DET/U_DET.m2" (snd r) =
    ["S y" ++ NL; "A 0 1|||U:DET|||x|||REQUIRED|||-NONE-|||0" ++ NL; NL] /\
  In ("Failed to align texts: [Errno 5] Input/output error: " ++
      "'out/R_VERB/R_VERB.m2'") (stdout (snd r)).
Proof.
  vm_compute. split; [reflexivity|]. split; [reflexivity|].
  split; [reflexivity|]. split; [reflexivity|]. repeat first [left; reflexivity | right].
Qed.

(** C2: with two observed labels, [error_file] holds a single line: the
    entries are written without a line terminator between them. *)
Lemma error_file_single_line :
  let s := snd (main args ["x"; "y"] [["R:VERB"; "U:DET"]] (init no_faults)) in
  error_count s = [("R:VERB", 1); ("U:DET", 1)] /\
  file_lines "error_file" s = ["R:VERB" ++ TAB ++ "1U:DET" ++ TAB ++ "1"].
Proof. vm_compute. split; reflexivity. Qed.

(** C6: a run in which opening [out/R_VERB/R_VERB.src] fails after
    [out/R_VERB/R_VERB.m2] has been opened.  The tuple of handles is never
    stored in [out_m2], so the [finally] clause does not close the [.m2]
    handle: it is still open when [main] has returned normally. *)
Lemma m2_handle_left_open :
  let r := main args ["x"] [["R:VERB"]]
                (init (open_refused "out/R_VERB/R_VERB.src")) in
  fst r = Ok tt /\
  out_files (snd r) = [] /\
  nth_error (handles (snd r)) 0 = Some ("out/R_VERB/R_VERB.m2", true).
Proof. vm_compute. split; [reflexivity|]. split; reflexivity. Qed.

(** C10: the hypotheses of [process_edit_one_block] hold in the initial
    state of the driver, where one edit of type ["R:VERB"] is processed. *)
Lemma process_edit_one_block_witness :
  fault_free (init no_faults) /\ handles_ok (init no_faults) /\
  fst (process_edit [mkWord "x"] 0 "R:VERB" (init no_faults)) = Ok tt.
Proof.
  assert (Hf : fault_free (init no_faults)) by (intro r; reflexivity).
  assert (Hh : handles_ok (init no_faults)) by (intros F h0 h1 h2 E; discriminate).
  split; [exact Hf|]. split; [exact Hh|].
  exact (proj1 (DriverFacts.process_edit_one_block [mkWord "x"] 0 "R:VERB" (init no_faults) Hf Hh)).
Defined.

(** C3: the hypothesis of [per_label_output_files] holds in a concrete run:
    the label ["R:VERB"] is counted once. *)
Lemma per_label_output_files_witness :
  let s := snd (main args ["x"] [["R:VERB"]] (init no_faults)) in
  In ("R:VERB", 1) (error_count s) /\
  In (out_dir "R_VERB") (dirs s) /\ file_exists (m2_path "R_VERB") s /\
  file_exists (src_path "R_VERB") s /\ file_exists (trg_path "R_VERB") s.
Proof.
  intros s.
  assert (Hin : In ("R:VERB", 1) (error_count s)) by (vm_compute; left; reflexivity).
  split; [exact Hin|].
  exact (DriverFacts.per_label_output_files args ["x"] [["R:VERB"]] "R:VERB" 1 Hin).
Defined.

(** C8: the hypothesis of [m2_files_are_blocks] holds in a concrete run:
    [out/R_VERB/R_VERB.m2] exists. *)
Lemma m2_files_are_blocks_witness :
  let s := snd (main args ["x"] [["R:VERB"]] (init no_faults)) in
  file_exists (m2_path "R_VERB") s /\
  exists bl, Forall (block_of_run args) bl /\ contents (m2_path "R_VERB") s = m2_text bl.
Proof.
  intros s.
  assert (Hex : file_exists (m2_path "R_VERB") s) by (vm_compute; eexists; reflexivity).
  split; [exact Hex|].
  exact (DriverFacts.m2_files_are_blocks args ["x"] [["R:VERB"]] "R_VERB" Hex).
Defined.

End DriverRuns.

(* ------------------------------------------------------------------ *)
(** * Further properties of the stemmer *)
(* ------------------------------------------------------------------ *)

Module StemmerExtra.
Import HindiStemmer StemmerSpec StemmerFacts.

Lemma endswith_app_l (p w suf : word) :
  length suf <= length w -> endswith (p ++ w) suf = endswith w suf.
Proof.
  intros Hl; unfold endswith; rewrite length_app.
  replace (Nat.leb (length suf) (length p + length w)) with true
    by (symmetry; apply Nat.leb_le; lia).
  replace (Nat.leb (length suf) (length w)) with true
    by (symmetry; apply Nat.leb_le; lia).
  rewrite skipn_app, skipn_all2 by lia; simpl.
  f_equal; f_equal; lia.
Qed.

Lemma drop_last_app_l (p w : word) (L : nat) :
  L <= length w -> drop_last (p ++ w) L = p ++ drop_last w L.
Proof.
  intros Hl; unfold drop_last; rewrite length_app, firstn_app.
  rewrite firstn_all2 by lia. f_equal; f_equal; lia.
Qed.

Lemma existsb_ext_in {A} (f g : A -> bool) (l : list A) :
  (forall x, In x l -> f x = g x) -> existsb f l = existsb g l.
Proof.
  induction l as [|x l IH]; intros Hfg; simpl; [reflexivity|].
  rewrite Hfg by (left; reflexivity). f_equal. apply IH; intros y Hy; apply Hfg; right; exact Hy.
Qed.

Lemma applicable_app_l (p w : word) (L : nat) :
  In L lengths -> 7 <= length w -> applicable (p ++ w) L = applicable w L.
Proof.
  intros HL Hw.
  assert (L <= 5) by (simpl in HL; intuition lia).
  unfold applicable; rewrite length_app.
  replace (Nat.ltb (L + 1) (length p + length w)) with true by (symmetry; apply Nat.ltb_lt; lia).
  replace (Nat.ltb (L + 1) (length w)) with true by (symmetry; apply Nat.ltb_lt; lia).
  simpl. apply existsb_ext_in; intros suf Hsuf.
  apply endswith_app_l. rewrite (suffixes_length L suf HL Hsuf); lia.
Qed.

(** For a word of at least 7 code points, all five guards hold, so the
    stem only depends on the word's ending: a prefix put in front of the
    word is kept as it is. *)
Theorem stem_app_prefix (p w : word) :
  7 <= length w -> stem (p ++ w) = p ++ stem w.
Proof.
  intros Hw. rewrite !stem_chain.
  rewrite !applicable_app_l by (simpl; tauto || lia).
  repeat match goal with |- context [if applicable w ?L then _ else _] =>
    destruct (applicable w L); [apply drop_last_app_l; lia|] end.
  reflexivity.
Qed.

(** Every entry of the table ends with a Devanagari code point. *)
Lemma suffixes_last_devanagari (L : nat) (suf : word) :
  In L lengths -> In suf (suffixes L) -> exists suf' d, suf = suf' ++ [d] /\ devanagari d = true.
Proof.
  intros HL Hs.
  assert (Hall : forall L, In L lengths ->
            forallb (fun x => match rev x with d :: _ => devanagari d | [] => false end)
                    (suffixes L) = true)
    by (intros L' HL'; simpl in HL'; intuition subst; vm_compute; reflexivity).
  specialize (Hall L HL); rewrite forallb_forall in Hall.
  specialize (Hall suf Hs).
  destruct (rev suf) as [|d r] eqn:Hr; [discriminate|].
  exists (rev r), d; split; [|exact Hall].
  rewrite <- (rev_involutive suf), Hr; reflexivity.
Qed.

(** A word whose last code point is outside the Devanagari block (a Latin
    word, a number, a punctuation mark) is returned unchanged. *)
Theorem stem_non_devanagari_final (w : word) (c : Z) :
  devanagari c = false -> stem (w ++ [c]) = w ++ [c].
Proof.
  intros Hc.
  destruct (stem_longest_first (w ++ [c])) as [[Hs _] | (L & HL & HA & _ & _)]; [exact Hs|].
  exfalso. unfold applicable in HA; apply andb_prop in HA as [_ HA].
  apply existsb_exists in HA as [suf [Hin Hend]].
  destruct (suffixes_last_devanagari L suf HL Hin) as (suf' & d & -> & Hd).
  apply endswith_split in Hend. rewrite app_assoc in Hend.
  apply app_inj_tail in Hend as [_ ->]. congruence.
Qed.

(** The hypothesis of [stem_app_prefix] holds for the prefix क in front of
    लड़कियों (8 code points). *)
Lemma stem_app_prefix_witness :
  let w := [0x0932; 0x0921; 0x093C; 0x0915; 0x093F; 0x092F; 0x094B; 0x0902]%Z in
  7 <= length w /\ stem ([0x0915]%Z ++ w) = [0x0915]%Z ++ stem w.
Proof.
  intros w. split; [simpl; lia|].
  apply stem_app_prefix; simpl; lia.
Defined.

(** The hypothesis of [stem_non_devanagari_final] holds for the Latin
    word "abc". *)
Lemma stem_non_devanagari_final_witness :
  devanagari 0x63%Z = false /\ stem ([0x61; 0x62] ++ [0x63])%Z = ([0x61; 0x62] ++ [0x63])%Z.
Proof.
  split; [reflexivity|].
  apply stem_non_devanagari_final; reflexivity.
Defined.

End StemmerExtra.

(* ------------------------------------------------------------------ *)
(** * Further properties of the driver *)
(* ------------------------------------------------------------------ *)

Module DriverExtra.
Import Driver DriverSpec DriverFacts.
Local Open Scope string_scope.
Local Open Scope py_scope.

Lemma heads_first {A} (ls : list (list A)) hs ts :
  heads ls = Some (hs, ts) -> Forall2 (fun f x => nth_error f 0 = Some x) ls hs.
Proof.
  revert hs ts; induction ls as [|[|x xs] ls IH]; intros hs ts Hh; simpl in Hh.
  - injection Hh as <- <-; constructor.
  - discriminate.
  - destruct (heads ls) as [[hs' ts']|] eqn:E; [|discriminate].
    injection Hh as <- <-. constructor; [reflexivity|]. eapply IH; reflexivity.
Qed.

Lemma heads_rest {A} (ls : list (list A)) hs ts i g :
  heads ls = Some (hs, ts) -> Forall2 (fun t x => nth_error t i = Some x) ts g ->
  Forall2 (fun f x => nth_error f (S i) = Some x) ls g.
Proof.
  revert hs ts g; induction ls as [|[|x xs] ls IH]; intros hs ts g Hh Hg; simpl in Hh.
  - injection Hh as <- <-; inversion Hg; constructor.
  - discriminate.
  - destruct (heads ls) as [[hs' ts']|] eqn:E; [|discriminate].
    injection Hh as <- <-. inversion Hg; subst. constructor; [assumption|].
    eapply IH; [reflexivity | eassumption].
Qed.

Lemma heads_exists {A} (ls : list (list A)) :
  (forall f, In f ls -> f <> []) ->
  exists hs ts, heads ls = Some (hs, ts) /\
    (forall t, In t ts -> exists f, In f ls /\ length t = length f - 1).
Proof.
  induction ls as [|[|x xs] ls IH]; intros Hne.
  - exists [], []; split; [reflexivity | intros t []].
  - exfalso; apply (Hne []); [left|]; reflexivity.
  - destruct IH as (hs & ts & Hh & Ht); [intros f Hf; apply Hne; right; exact Hf|].
    exists (x :: hs), (xs :: ts); split; [simpl; rewrite Hh; reflexivity|].
    intros t [<-|Hin].
    + exists (x :: xs); split; [left; reflexivity | simpl; lia].
    + destruct (Ht t Hin) as (f & Hf & Hl); exists f; split; [right|]; assumption.
Qed.

Lemma heads_nil {A} (ls : list (list A)) : In [] ls -> heads ls = None.
Proof.
  induction ls as [|[|x xs] ls IH]; intros Hin; simpl; [destruct Hin| reflexivity|].
  destruct Hin as [E|Hin]; [discriminate|]. rewrite IH by exact Hin; reflexivity.
Qed.

Lemma Forall2_in_l {A B} (R : A -> B -> Prop) l1 l2 x :
  Forall2 R l1 l2 -> In x l1 -> exists y, In y l2 /\ R x y.
Proof.
  induction 1 as [|a b l1' l2' Hab _ IH]; intros Hin; [destruct Hin|].
  destruct Hin as [<-|Hin]; [exists b; split; [left|]; auto|].
  destruct (IH Hin) as (y & Hy & HR); exists y; split; [right|]; auto.
Qed.

Lemma zip_aux_nth {A} fuel (ls : list (list A)) i g :
  nth_error (zip_aux fuel ls) i = Some g -> Forall2 (fun f x => nth_error f i = Some x) ls g.
Proof.
  revert ls i g; induction fuel as [|fuel IH]; intros ls i g Hn; simpl in Hn.
  - destruct i; discriminate.
  - destruct (heads ls) as [[hs ts]|] eqn:Hh; [|destruct i; discriminate].
    destruct i as [|i]; simpl in Hn.
    + injection Hn as <-; eapply heads_first; exact Hh.
    + eapply heads_rest; [exact Hh | apply IH; exact Hn].
Qed.

Lemma zip_aux_exists {A} fuel (ls : list (list A)) i :
  i < fuel -> (forall f, In f ls -> i < length f) ->
  exists g, nth_error (zip_aux fuel ls) i = Some g.
Proof.
  revert ls i; induction fuel as [|fuel IH]; intros ls i Hi Hl; [lia|].
  destruct (heads_exists ls) as (hs & ts & Hh & Ht).
  { intros f Hf E; specialize (Hl f Hf); subst; simpl in Hl; lia. }
  simpl; rewrite Hh.
  destruct i as [|i]; [exists hs; reflexivity|]. simpl.
  apply IH; [lia|]. intros t Hint.
  destruct (Ht t Hint) as (f & Hf & Hlt). specialize (Hl f Hf); lia.
Qed.

(** [zip( *files)] in [main]: the [i]-th group holds the [i]-th line of
    every file, in the order of the files, and there is an [i]-th group
    exactly when every file has more than [i] lines, so the loop stops at
    the end of the shortest file. *)
Theorem zip_lines_groups {A} (l : list A) (ls : list (list A)) (i : nat) :
  (forall g, nth_error (zip_lines (l :: ls)) i = Some g ->
     Forall2 (fun f x => nth_error f i = Some x) (l :: ls) g) /\
  ((forall f, In f (l :: ls) -> i < length f) <->
   exists g, nth_error (zip_lines (l :: ls)) i = Some g).
Proof.
  split; [intros g; apply zip_aux_nth|].
  split.
  - intros Hl. apply zip_aux_exists; [apply Hl; left; reflexivity | exact Hl].
  - intros [g Hg] f Hf. apply zip_aux_nth in Hg.
    destruct (Forall2_in_l _ _ _ f Hg Hf) as [x [_ Hx]].
    apply nth_error_Some; congruence.
Qed.

Lemma zip_lines_empty_file {A} (ls : list (list A)) :
  In [] ls -> zip_lines ls = [].
Proof.
  destruct ls as [|l ls]; intros Hin; [reflexivity|].
  unfold zip_lines; destruct l as [|x xs]; [reflexivity|].
  simpl; rewrite heads_nil; [reflexivity|].
  destruct Hin as [E|Hin]; [discriminate | exact Hin].
Qed.

Section Extra.
Context {Edit : Type} `{Annotator Edit} `{EditOps Edit}.

Lemma parse_all_raises tk lines line e :
  In line lines -> parse line tk = Raise e -> exists e', parse_all tk lines = Raise e'.
Proof.
  induction lines as [|l lines IH]; intros Hin Hp; [destruct Hin|].
  simpl. destruct (parse l tk) as [d|e0] eqn:Hl; [|eexists; reflexivity].
  destruct Hin as [<-|Hin]; [congruence|].
  destruct (IH Hin Hp) as [e' ->]; eexists; reflexivity.
Qed.

(** When one line of a group, original or corrected, cannot be parsed, the
    whole group is skipped: nothing is counted, opened or written, and the
    only effect is the message ["Failed to process line: ..."]. *)
Theorem process_group_parse_failure (args : Args) (lines : list string) (s : St)
    (line : string) (e : exc) :
  In line lines -> parse line (tok args) = Raise e ->
  exists e', process_group args lines s =
             (Ok tt, set_stdout s (app (stdout s) ["Failed to process line: " ++ exc_msg e'])).
Proof.
  intros Hin Hp. destruct (parse_all_raises (tok args) lines line e Hin Hp) as [e' He].
  exists e'. unfold process_group, try_except, bind, lift. rewrite He. reflexivity.
Qed.

(** Two different labels with the same file name (such as ["R:VERB"] and
    ["R_VERB"]) are counted apart in [error_count] but share one set of
    output files: on a fault-free run, their blocks go, in order, to the
    same [.m2] file. *)
Theorem shared_file_name (temp1 : list Word) (cor_id : nat) (e1 e2 : Edit) (s : St) :
  fault_free s -> handles_ok s ->
  str_replace_colon (edit_type e1) = str_replace_colon (edit_type e2) ->
  edit_type e1 <> edit_type e2 ->
  let F := str_replace_colon (edit_type e1) in
  let base := match lookup F (out_files s) with Some _ => contents (m2_path F) s | None => [] end in
  let r := (process_edit temp1 cor_id e1 ;; process_edit temp1 cor_id e2) s in
  fst r = Ok tt /\
  counter_get (edit_type e1) (error_count (snd r)) = S (counter_get (edit_type e1) (error_count s)) /\
  counter_get (edit_type e2) (error_count (snd r)) = S (counter_get (edit_type e2) (error_count s)) /\
  contents (m2_path F) (snd r) =
    app base (app (m2_block temp1 e1 cor_id) (m2_block temp1 e2 cor_id)).
Proof.
  intros Hf Hh HF Hne F base r.
  destruct (process_edit_spec temp1 cor_id e1 s Hf Hh)
    as (s1 & Hrun1 & Ef1 & _ & Ec1 & Hh1 & [hs1 HF1] & _ & _ & _ & Cm1 & _).
  assert (Hf1 : fault_free s1) by (intro q; rewrite Ef1; apply Hf).
  destruct (process_edit_spec temp1 cor_id e2 s1 Hf1 Hh1)
    as (s2 & Hrun2 & _ & _ & Ec2 & _ & _ & _ & _ & _ & Cm2 & _).
  unfold r; erewrite bind_ok by exact Hrun1. rewrite Hrun2; simpl fst; simpl snd.
  split; [reflexivity|].
  unfold counter_get in *. rewrite Ec2, Ec1.
  split; [rewrite lookup_insert_ne by exact Hne; rewrite lookup_insert_eq; reflexivity|].
  split; [rewrite lookup_insert_eq, lookup_insert_ne by (intro E; apply Hne; symmetry; exact E);
          reflexivity|].
  rewrite <- HF in Cm2. unfold base, F. rewrite Cm2, HF1, Cm1.
  rewrite app_assoc; reflexivity.
Qed.

(** When the original file or one of the corrected files is empty, [zip]
    yields no group: a run that meets no I/O failure creates no directory
    and no output file but an empty ['error_file'], and only prints its two
    progress messages. *)
Theorem main_empty_file (args : Args) (orig_lines : list string)
    (cor_lines : list (list string)) :
  In [] (orig_lines :: cor_lines) ->
  main args orig_lines cor_lines (init no_faults) =
  (Ok tt, mkSt no_faults [] [("error_file", [])] [("error_file", false)] [] []
               ["Loading resources..."; "Processing parallel files..."]).
Proof.
  intros Hin. unfold main.
  erewrite bind_ok by reflexivity.
  erewrite bind_ok by reflexivity.
  erewrite bind_ok by reflexivity.
  unfold try_finally. rewrite (zip_lines_empty_file _ Hin). reflexivity.
Qed.

(** The loop over the corrected texts of a group never stops early: an
    exception raised for one corrected text (by [annotate] or while
    writing its edits) is caught, and every later corrected text is still
    processed, from the state the previous one left. *)
Theorem process_sentences_every_cor (orig : Document) (cors : list Document)
    (args : Args) (s : St) :
  process_sentences orig cors args s =
  (Ok tt, fold_left (fun s ic => snd (process_cor (concat orig) orig args (fst ic) (snd ic) s))
                    (combine (seq 0 (length cors)) cors) s).
Proof.
  unfold process_sentences.
  generalize (combine (seq 0 (length cors)) cors) as ics.
  intros ics; revert s; induction ics as [|ic ics IH]; intros s; [reflexivity|].
  simpl for_; unfold bind.
  assert (Hc : fst (process_cor (concat orig) orig args (fst ic) (snd ic) s) = Ok tt).
  { unfold process_cor, try_except. destruct (bind _ _ s) as [[[]|e] s']; reflexivity. }
  destruct (process_cor _ _ _ _ _ s) as [r s'] eqn:E; simpl in Hc; subst r.
  rewrite IH; simpl; rewrite E; reflexivity.
Qed.

End Extra.


Lemma length_update_nth {A} n (x : A) l : length (update_nth n x l) = length l.
Proof. revert n; induction l as [|y l IH]; intros [|n]; simpl; auto. Qed.

Lemma nth_error_update_nth_eq {A} n (x : A) l :
  n < length l -> nth_error (update_nth n x l) n = Some x.
Proof. revert n; induction l as [|y l IH]; intros [|n] Hn; simpl in *; try lia; auto; apply IH; lia. Qed.

Lemma nth_error_update_nth_ne {A} n i (x : A) l :
  i <> n -> nth_error (update_nth n x l) i = nth_error l i.
Proof.
  revert n i; induction l as [|y l IH]; intros [|n] [|i] Hne; simpl; auto; try lia.
Qed.

Lemma update_nth_snoc {A} (l : list A) x y : update_nth (length l) x (app l [y]) = app l [x].
Proof. induction l as [|z l IH]; simpl; [reflexivity | rewrite IH; reflexivity]. Qed.

Lemma closes_only_refl s : closes_only s s.
Proof. repeat split; auto. Qed.

Lemma closes_only_trans s1 s2 s3 : closes_only s1 s2 -> closes_only s2 s3 -> closes_only s1 s3.
Proof.
  intros (F1 & O1 & A1 & B1 & C1) (F2 & O2 & A2 & B2 & C2).
  repeat split; try congruence; auto.
Qed.

Lemma close_spec h s :
  fault_free s -> nth_error (handles s) h <> None ->
  exists s', close h s = (Ok tt, s') /\ closes_only s s' /\
             (exists p, nth_error (handles s') h = Some (p, false)) /\
             keeps s s' /\ error_count s' = error_count s.
Proof.
  intros Hf Hv; unfold close.
  destruct (nth_error (handles s) h) as [[p [|]]|] eqn:Hn; [|eexists; split; [reflexivity|] | congruence].
  - rewrite Hf. eexists; split; [reflexivity|].
    assert (Hlt : h < length (handles s)) by (apply nth_error_Some; congruence).
    simpl_st. split; [|split; [exists p; apply nth_error_update_nth_eq; exact Hlt|]].
    + repeat split; simpl_st; auto.
      * intros i q Hi. destruct (Nat.eq_dec i h) as [->|Hne].
        -- rewrite nth_error_update_nth_eq in Hi by exact Hlt; discriminate.
        -- rewrite nth_error_update_nth_ne in Hi by exact Hne; exact Hi.
      * intros i q Hi. destruct (Nat.eq_dec i h) as [->|Hne]; [congruence|].
        rewrite nth_error_update_nth_ne by exact Hne; exact Hi.
      * intros i Hi. destruct (Nat.eq_dec i h) as [->|Hne].
        -- rewrite nth_error_update_nth_eq by exact Hlt; discriminate.
        -- rewrite nth_error_update_nth_ne by exact Hne; exact Hi.
    + split; [unfold keeps; repeat split; intros; reflexivity | reflexivity].
  - split; [apply closes_only_refl|]. split; [exists p; exact Hn|]. split; [apply keeps_refl|reflexivity].
Qed.

Lemma for_close_spec hs s :
  fault_free s -> (forall h, In h hs -> nth_error (handles s) h <> None) ->
  exists s', for_ hs close s = (Ok tt, s') /\ closes_only s s' /\
             (forall h, In h hs -> exists p, nth_error (handles s') h = Some (p, false)) /\
             keeps s s' /\ error_count s' = error_count s.
Proof.
  revert s; induction hs as [|h hs IH]; intros s Hf Hv.
  - exists s; split; [reflexivity|]. split; [apply closes_only_refl|].
    split; [intros h []|]. split; [apply keeps_refl|reflexivity].
  - destruct (close_spec h s Hf (Hv h (or_introl eq_refl)))
      as (s1 & Hrun & Co1 & [p Hp] & K1 & E1).
    destruct Co1 as (Ef1 & Eo1 & A1 & B1 & V1).
    destruct (IH s1) as (s2 & Hrun2 & Co2 & Hcl & K2 & E2).
    { intro r; rewrite Ef1; apply Hf. }
    { intros h' Hh'; apply V1, Hv; right; exact Hh'. }
    exists s2. simpl. erewrite bind_ok by exact Hrun. split; [exact Hrun2|].
    split; [apply (closes_only_trans s s1 s2); [repeat split; auto | exact Co2]|].
    split.
    + intros h' [<-|Hin]; [|apply Hcl, Hin].
      exists p. destruct Co2 as (_ & _ & _ & B2 & _). apply B2, Hp.
    + split; [apply (keeps_trans _ s1); assumption | congruence].
Qed.

Lemma lookup_In {A} k (v : A) m : lookup k m = Some v -> In (k, v) m.
Proof.
  induction m as [|[k' v'] m IH]; simpl; [discriminate|].
  destruct (String.eqb_spec k k') as [->|_]; [intros E; injection E as ->; left; reflexivity|].
  intros E; right; apply IH, E.
Qed.

Lemma close_all_spec s :
  fault_free s -> out_valid s ->
  exists s', close_all s = (Ok tt, s') /\ closes_only s s' /\
    (forall F h0 h1 h2, In (F, (h0, h1, h2)) (out_files s) ->
       forall h, In h [h0; h1; h2] -> exists p, nth_error (handles s') h = Some (p, false)) /\
    keeps s s' /\ error_count s' = error_count s.
Proof.
  intros Hf Hv. unfold close_all. erewrite bind_ok by reflexivity.
  assert (Gen : forall (os : list (string * (nat * nat * nat))) st, fault_free st ->
            (forall F h0 h1 h2, In (F, (h0, h1, h2)) os ->
               forall h, In h [h0; h1; h2] -> nth_error (handles st) h <> None) ->
            exists st', for_ os (fun kv => match kv with (_, (h0, h1, h2)) => for_ [h0; h1; h2] close end) st
                        = (Ok tt, st') /\ closes_only st st' /\
              (forall F h0 h1 h2, In (F, (h0, h1, h2)) os ->
                 forall h, In h [h0; h1; h2] -> exists p, nth_error (handles st') h = Some (p, false)) /\
              keeps st st' /\ error_count st' = error_count st).
  { induction os as [|[F [[h0 h1] h2]] os IH]; intros st Hf' Hv'.
    - exists st; split; [reflexivity|]. split; [apply closes_only_refl|].
      split; [intros ? ? ? ? []|]. split; [apply keeps_refl|reflexivity].
    - destruct (for_close_spec [h0; h1; h2] st Hf' (Hv' F h0 h1 h2 (or_introl eq_refl)))
        as (s1 & Hrun1 & Co1 & Hcl1 & K1 & E1).
      pose proof Co1 as (Ef1 & Eo1 & A1 & B1 & V1).
      destruct (IH s1) as (s2 & Hrun2 & Co2 & Hcl2 & K2 & E2).
      { intro r; rewrite Ef1; apply Hf'. }
      { intros F' g0 g1 g2 Hin h Hh; apply V1, (Hv' F' g0 g1 g2); [right|]; assumption. }
      exists s2; simpl. erewrite bind_ok by exact Hrun1. split; [exact Hrun2|].
      split; [apply (closes_only_trans _ s1); assumption|].
      split.
      + intros F' g0 g1 g2 [E|Hin] h Hh.
        * injection E as <- <- <- <-. destruct (Hcl1 h Hh) as [p Hp].
          exists p; destruct Co2 as (_ & _ & _ & B2 & _); apply B2, Hp.
        * apply (Hcl2 F' g0 g1 g2 Hin h Hh).
      + split; [apply (keeps_trans _ s1); assumption | congruence]. }
  apply Gen; [exact Hf|].
  intros F h0 h1 h2 Hin h Hh. destruct (Hv F h0 h1 h2 Hin) as (L0 & L1 & L2).
  apply nth_error_Some. simpl in Hh; intuition subst; assumption.
Qed.

Lemma for_app {A} (xs ys : list A) (f : A -> M unit) s :
  for_ (app xs ys) f s = bind (for_ xs f) (fun _ => for_ ys f) s.
Proof.
  revert s; induction xs as [|x xs IH]; intros s; simpl; [reflexivity|].
  cbv [bind]. destruct (f x s) as [[u|e] s']; [rewrite IH; reflexivity | reflexivity].
Qed.

Lemma write_error_lines h c s :
  fault_free s -> nth_error (handles s) h = Some ("error_file", true) ->
  exists s', for_ c (fun kv => write h (fst kv ++ TAB ++ str_nat (snd kv))) s = (Ok tt, s') /\
    handles s' = handles s /\ faults s' = faults s /\ error_count s' = error_count s /\
    contents "error_file" s' = app (contents "error_file" s) (map error_line c).
Proof.
  revert s; induction c as [|kv c IH] using rev_ind; intros s Hf Hh.
  - exists s; split; [reflexivity|]. rewrite app_nil_r; auto.
  - rewrite for_app.
    destruct (IH s Hf Hh) as (s1 & Hrun & Eh & Ef & Ec & Cc).
    erewrite bind_ok by exact Hrun. simpl.
    erewrite bind_ok by (apply write_eq; [rewrite Eh; exact Hh | rewrite Ef; apply Hf]).
    eexists; split; [reflexivity|]. simpl_st.
    split; [exact Eh|]. split; [exact Ef|]. split; [exact Ec|].
    rewrite contents_set_files_eq, Cc, map_app, app_assoc; reflexivity.
Qed.

Lemma write_error_file_spec s :
  fault_free s ->
  exists s', write_error_file s = (Ok tt, s') /\
    handles s' = app (handles s) [("error_file", false)] /\
    contents "error_file" s' = map error_line (error_count s) /\
    keeps s s'.
Proof.
  intros Hf. pose proof (write_error_file_keeps s) as K.
  unfold write_error_file in *. erewrite bind_ok in * by (apply open_w_eq; apply Hf).
  set (s1 := set_handles (set_files s (insert "error_file" [] (files s)))
                         (app (handles s) [("error_file", true)])) in *.
  assert (Hh1 : nth_error (handles s1) (length (handles s)) = Some ("error_file", true))
    by apply nth_error_snoc.
  assert (Hf1 : fault_free s1) by exact Hf.
  unfold try_finally in *. erewrite bind_ok in * by reflexivity.
  destruct (write_error_lines (length (handles s)) (error_count s1) s1 Hf1 Hh1)
    as (s2 & Hrun & Eh & Ef & Ec & Cc).
  rewrite Hrun in *.
  unfold close in *. rewrite Eh in *. rewrite Hh1 in *. rewrite Ef, Hf1 in *.
  eexists; split; [reflexivity|]. simpl_st.
  split; [unfold s1 at 1; simpl_st; apply update_nth_snoc|].
  split; [|exact K].
  change (contents "error_file" s2 = map error_line (error_count s)).
  rewrite Cc. unfold contents at 1; unfold s1; simpl_st. rewrite lookup_insert_eq. reflexivity.
Qed.


Lemma In_insert_val {A} k k' (v v' : A) m :
  In (k', v') (insert k v m) -> (k' = k /\ v' = v) \/ In (k', v') m.
Proof.
  induction m as [|[k0 v0] m IH]; simpl.
  - intros [E|[]]; injection E; auto.
  - destruct (String.eqb_spec k k0) as [->|Hne]; simpl.
    + intros [E|Hin]; [injection E as -> ->; auto | auto].
    + intros [E|Hin]; [auto | destruct (IH Hin); auto].
Qed.

Lemma Pres_hinv_frame {A} (m : M A) :
  (forall s, handles (snd (m s)) = handles s /\ out_files (snd (m s)) = out_files s /\
             faults (snd (m s)) = faults s) -> Pres hinv m.
Proof.
  intros Hm s (Hf & Ho & Hv). destruct (Hm s) as (Eh & Eo & Ef).
  split; [intro r; rewrite Ef; apply Hf|].
  split; [unfold open_inv; rewrite Eh, Eo; exact Ho|].
  unfold out_valid; rewrite Eh, Eo; exact Hv.
Qed.

Lemma open_outputs_hinv F : Pres hinv (open_outputs F).
Proof.
  intros s (Hf & Ho & Hv). unfold open_outputs.
  erewrite bind_ok by reflexivity. cbn [out_files].
  destruct (lookup F (out_files s)) as [hs|] eqn:Hl; [split; auto|].
  erewrite bind_ok by (apply makedirs_eq; apply Hf). cbv zeta.
  erewrite bind_ok by (apply open_w_eq; apply Hf).
  erewrite bind_ok by (apply open_w_eq; apply Hf).
  erewrite bind_ok by (apply open_w_eq; apply Hf).
  unfold set_out; simpl_st. rewrite !length_app; simpl.
  set (n := length (handles s)).
  split; [exact Hf|]. split.
  - intros i p Hi. simpl_st.
    assert (Hlt : i < n + 1 + 1 + 1).
    { match type of Hi with nth_error ?l i = _ =>
        assert (Hs : nth_error l i <> None) by (rewrite Hi; discriminate) end.
      apply nth_error_Some in Hs. rewrite !length_app in Hs; simpl in Hs. unfold n; lia. }
    destruct (Nat.lt_ge_cases i n) as [Hin|Hge].
    + rewrite <- !app_assoc, nth_error_app1 in Hi by exact Hin.
      destruct (Ho i p Hi) as (F' & g0 & g1 & g2 & HF' & Hg).
      exists F', g0, g1, g2; split; [|exact Hg].
      rewrite lookup_insert_ne; [exact HF'|]. intros ->; congruence.
    + exists F, n, (n + 1), (n + 1 + 1); split; [apply lookup_insert_eq|]. lia.
  - intros F' g0 g1 g2 Hin. simpl_st.
    apply In_insert_val in Hin as [[-> E]|Hin].
    + injection E as -> -> ->; rewrite ?length_app; simpl; unfold n; lia.
    + destruct (Hv F' g0 g1 g2 Hin) as (L0 & L1 & L2); rewrite ?length_app; simpl; unfold n in *; lia.
Qed.

Lemma label_total_insert F l v c :
  label_total F (insert l v c) + (if String.eqb (str_replace_colon l) F then counter_get l c else 0) =
  label_total F c + (if String.eqb (str_replace_colon l) F then v else 0).
Proof.
  unfold counter_get; induction c as [|[k w] c IH]; simpl.
  - destruct (String.eqb (str_replace_colon l) F); simpl; lia.
  - destruct (String.eqb_spec l k) as [->|Hne]; simpl.
    + destruct (String.eqb (str_replace_colon k) F); lia.
    + destruct (String.eqb (str_replace_colon k) F), (String.eqb (str_replace_colon l) F); simpl in *; lia.
Qed.

Lemma label_total_zero F c :
  (forall l n, In (l, n) c -> str_replace_colon l <> F) -> label_total F c = 0.
Proof.
  induction c as [|[k w] c IH]; intros Hc; simpl; [reflexivity|].
  destruct (String.eqb_spec (str_replace_colon k) F) as [E|_].
  - exfalso; apply (Hc k w); [left; reflexivity | exact E].
  - apply IH; intros l n Hin; apply (Hc l n); right; exact Hin.
Qed.

Lemma src_trg_neq2 F G : src_path F <> trg_path G.
Proof. intros E; apply path_eq in E as [_ E]; [discriminate | reflexivity]. Qed.

Lemma In_keys_insert {A} x k (v : A) m :
  In x (map fst (insert k v m)) -> x = k \/ In x (map fst m).
Proof.
  induction m as [|[k0 v0] m IH]; simpl.
  - intros [<-|[]]; auto.
  - destruct (String.eqb_spec k k0) as [->|Hne]; simpl; [tauto|].
    intros [<-|Hin]; [auto | destruct (IH Hin); auto].
Qed.

Lemma NoDup_keys_insert {A} k (v : A) m :
  NoDup (map fst m) -> NoDup (map fst (insert k v m)).
Proof.
  induction m as [|[k0 v0] m IH]; simpl; intros Hnd.
  - constructor; [intros []|constructor].
  - inversion Hnd as [|? ? Hnin Hnd']; subst.
    destruct (String.eqb_spec k k0) as [->|Hne]; simpl; constructor; auto.
    intros Hin; apply In_keys_insert in Hin as [->|Hin]; auto.
Qed.

Section Run.
Context {Edit : Type} `{Annotator Edit} `{EditOps Edit}.

Lemma Pres_hinv_write h d : Pres hinv (write h d).
Proof.
  apply Pres_hinv_frame; intros s; unfold write.
  destruct (nth_error (handles s) h) as [[p [|]]|]; [destruct (faults s _)|..]; auto.
Qed.

Lemma process_edit_hinv temp1 cor_id (e : Edit) : Pres hinv (process_edit temp1 cor_id e).
Proof.
  unfold process_edit. apply Pres_bind; [apply Pres_hinv_frame; auto|]. intros _.
  apply Pres_bind; [apply open_outputs_hinv|]. intros _.
  unfold write_edit. apply Pres_bind; [apply Pres_hinv_frame; auto|]. intros o.
  destruct (lookup _ o) as [[[h0 h1] h2]|]; [|apply Pres_raise].
  repeat (apply Pres_bind; [apply Pres_hinv_write|]; intros _).
  destruct (to_srctrg e) as [src trg].
  apply Pres_bind; [apply Pres_hinv_write|]; intros _. apply Pres_hinv_write.
Qed.

Lemma process_edit_cnt temp1 cor_id (e : Edit) s args :
  loop_inv args s -> cnt_inv s -> cnt_inv (snd (process_edit temp1 cor_id e s)).
Proof.
  intros (Hf & Hh & Hc & _) Hn.
  destruct (process_edit_spec temp1 cor_id e s Hf Hh)
    as (s' & Hrun & _ & _ & Ec & _ & _ & Hout & _ & _ & Cm & Cs & Ct & Cp).
  rewrite Hrun; simpl snd.
  set (l := edit_type e) in *. set (Fe := str_replace_colon l) in *.
  pose proof (label_total_insert Fe l (S (counter_get l (error_count s))) (error_count s)) as Tot.
  fold Fe in Tot; rewrite String.eqb_refl in Tot.
  intros F hs HF. rewrite Ec.
  destruct (String.eqb_spec F Fe) as [->|Hne].
  - assert (Hinc : label_total Fe (insert l (S (counter_get l (error_count s))) (error_count s)) =
                   S (label_total Fe (error_count s))) by lia.
    rewrite Hinc, Cm, Cs, Ct.
    destruct (lookup Fe (out_files s)) as [hs0|] eqn:Hl0.
    + destruct (Hn Fe hs0 Hl0) as (Ls & Lt & Lm).
      rewrite !length_app, Ls, Lt, Lm; simpl; lia.
    + rewrite (label_total_zero Fe (error_count s)); [simpl; lia|].
      intros l' n Hin E. destruct (Hc l' n Hin) as [hs' Hl']. rewrite E in Hl'; congruence.
  - rewrite Hout in HF by exact Hne.
    pose proof (label_total_insert F l (S (counter_get l (error_count s))) (error_count s)) as Tot'.
    replace (String.eqb (str_replace_colon l) F) with false in Tot'
      by (symmetry; apply String.eqb_neq; intro E; apply Hne; rewrite <- E; reflexivity).
    rewrite !Nat.add_0_r in Tot'. rewrite Tot'.
    assert (Pm : m2_path F <> m2_path Fe) by (apply paths_of_ne; [exact Hne | reflexivity]).
    assert (Ps : src_path F <> src_path Fe) by (apply paths_of_ne; [exact Hne | reflexivity]).
    assert (Pt : trg_path F <> trg_path Fe) by (apply paths_of_ne; [exact Hne | reflexivity]).
    unfold contents; rewrite !Cp by (first [assumption | apply m2_src_neq | apply m2_trg_neq
        | apply src_trg_neq2
        | let E := fresh in intro E; symmetry in E; revert E;
          first [apply m2_src_neq | apply m2_trg_neq | apply src_trg_neq2]]).
    exact (Hn F hs HF).
Qed.

Lemma process_edit_run args orig cor edits (e : Edit) cor_id s :
  annotate orig cor (lev args) (merge args) = Ok edits -> In e edits ->
  run_inv args s -> run_inv args (snd (process_edit (concat orig) cor_id e s)).
Proof.
  intros Ha Hin (Hl & Ho & Hv & Hn).
  destruct (process_edit_hinv (concat orig) cor_id e s) as (_ & Ho' & Hv');
    [split; [apply Hl | split; assumption]|].
  split; [apply (process_edit_inv args orig cor edits); assumption|].
  split; [exact Ho'|]. split; [exact Hv'|].
  apply (process_edit_cnt _ _ _ _ args Hl Hn).
Qed.

Lemma process_group_run args lines : Pres (run_inv args) (process_group args lines).
Proof.
  unfold process_group; apply Pres_try_except; [|intros e s Hs; exact Hs].
  apply Pres_bind_lift; intros [|d0 ds] _; [apply Pres_raise|].
  unfold process_sentences; apply Pres_for; intros ic _.
  unfold process_cor; apply Pres_try_except; [|intros e s Hs; exact Hs].
  apply Pres_bind_lift; intros edits Ha.
  apply Pres_for; intros e Hin s Hs.
  apply (process_edit_run args d0 (snd ic) edits e (fst ic) s Ha Hin Hs).
Qed.

(** [error_count] lists each label once. *)
Lemma process_group_keys args lines :
  Pres (fun s => fault_free s /\ handles_ok s /\ NoDup (map fst (error_count s)))
       (process_group args lines).
Proof.
  unfold process_group; apply Pres_try_except; [|intros e s Hs; exact Hs].
  apply Pres_bind_lift; intros [|d0 ds] _; [apply Pres_raise|].
  unfold process_sentences; apply Pres_for; intros ic _.
  unfold process_cor; apply Pres_try_except; [|intros e s Hs; exact Hs].
  apply Pres_bind_lift; intros edits Ha.
  apply Pres_for; intros e Hin s (Hf & Hh & Hnd).
  destruct (process_edit_spec (concat d0) (fst ic) e s Hf Hh)
    as (s' & Hrun & Ef & _ & Ec & Hh' & _).
  rewrite Hrun; simpl snd.
  split; [intro r; rewrite Ef; apply Hf|]. split; [exact Hh'|].
  rewrite Ec; apply NoDup_keys_insert, Hnd.
Qed.

Lemma for_groups_ok args groups s : fst (for_ groups (process_group args) s) = Ok tt.
Proof.
  revert s; induction groups as [|lines groups IH]; intros s; [reflexivity|].
  simpl for_; unfold bind.
  assert (Hg : fst (process_group args lines s) = Ok tt).
  { unfold process_group, try_except.
    destruct (bind _ _ s) as [[[]|e] s']; reflexivity. }
  destruct (process_group args lines s) as [r s'] eqn:E; simpl in Hg; subst r.
  apply IH.
Qed.

(** A fault-free run: the loop ends in a state [s3] of the invariant, the
    [finally] clause closes every file object of [out_files], and [main]
    ends by writing ['error_file']. *)
Lemma main_run args orig_lines cor_lines :
  exists s3 s4, run_inv args s3 /\ NoDup (map fst (error_count s3)) /\ close_all s3 = (Ok tt, s4) /\ closes_only s3 s4 /\
    (forall F h0 h1 h2, In (F, (h0, h1, h2)) (out_files s3) ->
       forall h, In h [h0; h1; h2] -> exists p, nth_error (handles s4) h = Some (p, false)) /\
    keeps s3 s4 /\
    main args orig_lines cor_lines (init no_faults) = write_error_file s4.
Proof.
  unfold main.
  erewrite bind_ok by reflexivity.
  erewrite bind_ok by reflexivity.
  erewrite bind_ok by reflexivity.
  set (s2 := set_stdout _ _).
  assert (I2 : run_inv args s2).
  { split; [|split; [|split]].
    - split; [intro r; reflexivity|].
      split; [intros F h0 h1 h2 E; discriminate|].
      split; [intros l n []|].
      split; [intros F [c E]; discriminate|].
      intros F hs E; discriminate.
    - intros i p E; destruct i; discriminate.
    - intros F h0 h1 h2 [].
    - intros F hs E; discriminate. }
  set (groups := zip_lines (orig_lines :: cor_lines)).
  pose proof (for_groups_ok args groups s2) as Hok.
  assert (I3 : run_inv args (snd (for_ groups (process_group args) s2)))
    by (apply Pres_for; [intros lines _; apply process_group_run | exact I2]).
  assert (J3 : (fun s => fault_free s /\ handles_ok s /\ NoDup (map fst (error_count s)))
                (snd (for_ groups (process_group args) s2))).
  { apply Pres_for; [intros lines _; apply process_group_keys|].
    split; [intro r; reflexivity|]. split; [intros F h0 h1 h2 E; discriminate|]. constructor. }
  destruct (for_ groups (process_group args) s2) as [r s3] eqn:E3.
  simpl in Hok, I3, J3; subst r. destruct J3 as (_ & _ & Hnd3).
  destruct I3 as ((Hf3 & Hrest) & Ho3 & Hv3 & Hn3).
  destruct (close_all_spec s3 Hf3 Hv3) as (s4 & Hc & Co & Hcl & K & _).
  exists s3, s4. split; [split; [split; [exact Hf3 | exact Hrest] | auto]|].
  split; [exact Hnd3|].
  split; [exact Hc|]. split; [exact Co|]. split; [exact Hcl|]. split; [exact K|].
  unfold bind, try_finally. rewrite E3, Hc. reflexivity.
Qed.

(** When no I/O operation fails, [main] returns normally and every file
    object it opened (the three of each file name and ['error_file']) is
    closed when it returns, whatever the annotator does. *)
Theorem main_closes_every_file (args : Args) (orig_lines : list string)
    (cor_lines : list (list string)) :
  let r := main args orig_lines cor_lines (init no_faults) in
  fst r = Ok tt /\
  forall i p b, nth_error (handles (snd r)) i = Some (p, b) -> b = false.
Proof.
  intros r.
  destruct (main_run args orig_lines cor_lines)
    as (s3 & s4 & ((Hf3 & _) & Ho3 & _ & _) & _ & _ & Co & Hcl & K & Hmain).
  assert (Hf4 : fault_free s4) by (intro q; destruct K as (Ef & _); rewrite Ef; apply Hf3).
  destruct (write_error_file_spec s4 Hf4) as (s5 & Hrun & Eh & _ & _).
  unfold r; rewrite Hmain, Hrun; simpl fst; simpl snd.
  split; [reflexivity|].
  intros i p b Hi. rewrite Eh in Hi.
  destruct (Nat.lt_ge_cases i (length (handles s4))) as [Hlt|Hge].
  - rewrite nth_error_app1 in Hi by exact Hlt.
    destruct b; [exfalso|reflexivity].
    destruct Co as (_ & _ & Hback & _ & _).
    destruct (Ho3 i p (Hback i p Hi)) as (F & h0 & h1 & h2 & HF & Hidx).
    destruct (Hcl F h0 h1 h2 (lookup_In _ _ _ HF) i) as [q Hq];
      [simpl; intuition|].
    congruence.
  - rewrite nth_error_app2 in Hi by exact Hge.
    destruct (i - length (handles s4)) as [|k]; simpl in Hi;
      [injection Hi as _ <-; reflexivity | destruct k; discriminate].
Qed.

(** When no I/O operation fails, ['error_file'] receives one write
    [label + '\t' + str(count)] per entry of [error_count] at the end of
    the run, in the order the labels were first seen, and [error_count]
    holds each label once. *)
Theorem error_file_one_write_per_label (args : Args) (orig_lines : list string)
    (cor_lines : list (list string)) :
  let s := snd (main args orig_lines cor_lines (init no_faults)) in
  contents "error_file" s = map error_line (error_count s) /\
  NoDup (map fst (error_count s)).
Proof.
  intros s.
  destruct (main_run args orig_lines cor_lines)
    as (s3 & s4 & ((Hf3 & _) & _) & Hnd & _ & _ & _ & K & Hmain).
  assert (Hf4 : fault_free s4) by (intro q; destruct K as (Ef & _); rewrite Ef; apply Hf3).
  destruct (write_error_file_spec s4 Hf4) as (s5 & Hrun & _ & Ce & K5).
  unfold s; rewrite Hmain, Hrun; simpl snd.
  destruct K as (_ & _ & Ec4 & _), K5 as (_ & _ & Ec5 & _).
  rewrite Ec5. split; [exact Ce|]. rewrite Ec4; exact Hnd.
Qed.

(** When no I/O operation fails, each file name [F] with output files got,
    over the whole run, one write to [F.src] and one to [F.trg] per edit
    counted under a label whose file name is [F], and three writes to
    [F.m2] per such edit. *)
Theorem output_writes_match_counts (args : Args) (orig_lines : list string)
    (cor_lines : list (list string)) :
  let s := snd (main args orig_lines cor_lines (init no_faults)) in
  forall F hs, lookup F (out_files s) = Some hs ->
    length (contents (src_path F) s) = label_total F (error_count s) /\
    length (contents (trg_path F) s) = label_total F (error_count s) /\
    length (contents (m2_path F) s) = 3 * label_total F (error_count s).
Proof.
  intros s.
  destruct (main_run args orig_lines cor_lines)
    as (s3 & s4 & ((Hf3 & _) & _ & _ & Hn3) & _ & _ & _ & _ & K & Hmain).
  assert (Hf4 : fault_free s4) by (intro q; destruct K as (Ef & _); rewrite Ef; apply Hf3).
  destruct (write_error_file_spec s4 Hf4) as (s5 & Hrun & _ & _ & K5).
  assert (K35 : keeps s3 s5) by (apply (keeps_trans _ s4); assumption).
  unfold s; rewrite Hmain, Hrun; simpl snd.
  destruct K35 as (_ & _ & Ec & Eo & Ep).
  intros F hs HF. rewrite Eo in HF. rewrite Ec.
  unfold contents; rewrite !Ep by
    first [apply error_file_neq_m2 | apply error_file_neq_src | apply error_file_neq_trg].
  exact (Hn3 F hs HF).
Qed.

End Run.

End DriverExtra.

(* ------------------------------------------------------------------ *)
(** * Concrete runs for the further driver properties *)
(* ------------------------------------------------------------------ *)

Module DriverExtraRuns.
Import Driver DriverSpec Scenario.
Local Open Scope string_scope.
Local Open Scope py_scope.

(** The hypotheses of [process_group_parse_failure] hold for the group
    ["x"; "BAD"], whose second line cannot be parsed. *)
Lemma process_group_parse_failure_witness :
  In "BAD" ["x"; "BAD"] /\
  parse "BAD" (tok args) = Raise (mkExc "ValueError" "cannot parse") /\
  exists e', process_group args ["x"; "BAD"] (init no_faults) =
    (Ok tt, set_stdout (init no_faults)
              (app (stdout (init no_faults)) ["Failed to process line: " ++ exc_msg e'])).
Proof.
  assert (Hin : In "BAD" ["x"; "BAD"]) by (right; left; reflexivity).
  assert (Hp : parse "BAD" (tok args) = Raise (mkExc "ValueError" "cannot parse")) by reflexivity.
  split; [exact Hin|]. split; [exact Hp|].
  exact (DriverExtra.process_group_parse_failure args ["x"; "BAD"] (init no_faults) "BAD" _ Hin Hp).
Defined.

(** The hypotheses of [shared_file_name] hold for the labels ["R:VERB"]
    and ["R_VERB"] in the initial state. *)
Lemma shared_file_name_witness :
  fault_free (init no_faults) /\ handles_ok (init no_faults) /\
  str_replace_colon (edit_type "R:VERB") = str_replace_colon (edit_type "R_VERB") /\
  edit_type "R:VERB" <> edit_type "R_VERB" /\
  fst ((process_edit [mkWord "x"] 0 "R:VERB" ;; process_edit [mkWord "x"] 0 "R_VERB")
         (init no_faults)) = Ok tt.
Proof.
  assert (Hf : fault_free (init no_faults)) by (intro r; reflexivity).
  assert (Hh : handles_ok (init no_faults)) by (intros F h0 h1 h2 E; discriminate).
  assert (HF : str_replace_colon (edit_type "R:VERB") = str_replace_colon (edit_type "R_VERB"))
    by reflexivity.
  assert (Hne : edit_type "R:VERB" <> edit_type "R_VERB") by discriminate.
  split; [exact Hf|]. split; [exact Hh|]. split; [exact HF|]. split; [exact Hne|].
  exact (proj1 (DriverExtra.shared_file_name [mkWord "x"] 0 "R:VERB" "R_VERB"
                  (init no_faults) Hf Hh HF Hne)).
Defined.

(** The hypothesis of [main_empty_file] holds for an empty original file
    and one corrected file of one line. *)
Lemma main_empty_file_witness :
  In [] ([] :: [["a"]]) /\
  main args [] [["a"]] (init no_faults) =
  (Ok tt, mkSt no_faults [] [("error_file", [])] [("error_file", false)] [] []
               ["Loading resources..."; "Processing parallel files..."]).
Proof.
  assert (Hin : In (@nil string) ([] :: [["a"]])) by (left; reflexivity).
  split; [exact Hin|].
  exact (DriverExtra.main_empty_file args [] [["a"]] Hin).
Defined.

(** The hypothesis of [output_writes_match_counts] holds in a run with one
    edit of type ["R:VERB"]: the file name ["R_VERB"] has output files. *)
Lemma output_writes_match_counts_witness :
  let s := snd (main args ["x"] [["R:VERB"]] (init no_faults)) in
  lookup "R_VERB" (out_files s) = Some (0, 1, 2) /\
  length (contents (src_path "R_VERB") s) = label_total "R_VERB" (error_count s) /\
  length (contents (trg_path "R_VERB") s) = label_total "R_VERB" (error_count s) /\
  length (contents (m2_path "R_VERB") s) = 3 * label_total "R_VERB" (error_count s).
Proof.
  intros s.
  assert (Hl : lookup "R_VERB" (out_files s) = Some (0, 1, 2)) by (vm_compute; reflexivity).
  split; [exact Hl|].
  exact (DriverExtra.output_writes_match_counts args ["x"] [["R:VERB"]] "R_VERB" (0, 1, 2) Hl).
Defined.

End DriverExtraRuns.

(* ------------------------------------------------------------------ *)
(** * Reading the input files: [for lines in zip( *files)] *)
(* ------------------------------------------------------------------ *)

Module DriverStreamFacts.
Import Driver DriverSpec DriverFacts DriverExtra DriverStream.
Local Open Scope string_scope.
Local Open Scope py_scope.

(** On files that read to their end, a step of the lazy [zip] is
    [Driver.heads]. *)
Lemma zip_next_clean (ls : list (list string)) :
  zip_next (map clean ls) =
  match heads ls with
  | Some (hs, ts) => Ok (Some (hs, map clean ts))
  | None => Ok None
  end.
Proof.
  induction ls as [|[|x xs] ls IH]; [reflexivity|reflexivity|].
  simpl. rewrite IH. destruct (heads ls) as [[hs ts]|]; reflexivity.
Qed.

Section Loop.
Context {Edit : Type} `{Annotator Edit} `{EditOps Edit}.

Lemma for_zip_clean args n l ls s :
  length l <= n ->
  for_zip_aux args (S n) (map clean (l :: ls)) s = for_ (zip_aux n (l :: ls)) (process_group args) s.
Proof.
  revert l ls s; induction n as [|n IH]; intros l ls s Hl.
  - destruct l; [reflexivity | simpl in Hl; lia].
  - destruct l as [|x l]; [reflexivity|].
    change (map clean ((x :: l) :: ls)) with (mkIn (x :: l) None :: map clean ls).
    cbn [for_zip_aux zip_next in_lines in_end zip_aux heads].
    rewrite zip_next_clean. destruct (heads ls) as [[hs ts]|]; [|reflexivity].
    cbn [for_]. unfold bind.
    destruct (process_group args (x :: hs) s) as [[[]|e] s']; [|reflexivity].
    apply (IH l ts s'). simpl in Hl; lia.
Qed.

Lemma for_zip_error args n l ls e s :
  length l <= n -> (forall c, In c ls -> length l <= length c) ->
  for_zip_aux args (S n) (mkIn l (Some e) :: map clean ls) s =
  (for_ (zip_aux n (l :: ls)) (process_group args) ;; raise e) s.
Proof.
  revert l ls s; induction n as [|n IH]; intros l ls s Hl Hc.
  - destruct l; [reflexivity | simpl in Hl; lia].
  - destruct l as [|x l]; [reflexivity|].
    destruct (heads_exists ls) as (hs & ts & Hh & Ht).
    { intros f Hf E; specialize (Hc f Hf); subst; simpl in Hc; lia. }
    cbn [for_zip_aux zip_next in_lines in_end zip_aux heads].
    rewrite zip_next_clean, Hh. cbn [for_]. unfold bind.
    destruct (process_group args (x :: hs) s) as [[[]|e'] s']; [|reflexivity].
    refine (eq_trans (IH l ts s' _ _) _); [simpl in Hl; lia | | reflexivity].
    intros t Hint. destruct (Ht t Hint) as (f & Hf & E). specialize (Hc f Hf).
    simpl in Hc; lia.
Qed.

Lemma zip_aux_length n l (ls : list (list string)) :
  length l <= n -> (forall c, In c ls -> length l <= length c) ->
  length (zip_aux n (l :: ls)) = length l.
Proof.
  revert l ls; induction n as [|n IH]; intros l ls Hl Hc.
  - destruct l; [reflexivity | simpl in Hl; lia].
  - destruct l as [|x l]; [reflexivity|].
    destruct (heads_exists ls) as (hs & ts & Hh & Ht).
    { intros f Hf E; specialize (Hc f Hf); subst; simpl in Hc; lia. }
    simpl; rewrite Hh; simpl. f_equal. apply IH; [simpl in Hl; lia|].
    intros t Hint. destruct (Ht t Hint) as (f & Hf & E). specialize (Hc f Hf).
    simpl in Hc; lia.
Qed.

(** When every input file reads to its end, [main] reading lazily is
    [Driver.main] on the lists of the files' lines. *)
Lemma main_clean args ol cl s :
  DriverStream.main args (clean ol) (map clean cl) s = Driver.main args ol cl s.
Proof.
  unfold DriverStream.main, Driver.main, bind, print, reset_locals, try_finally, for_zip.
  change (clean ol :: map clean cl) with (map clean (ol :: cl)).
  cbn [in_lines clean]. rewrite for_zip_clean by lia. reflexivity.
Qed.

(** Reading a line of an input file raises: the exception escapes the
    per-group handler of [main].  When the [-orig] file raises [e] on the
    read after its lines [ol] and every [-cor] file has at least as many
    lines, [main] processes exactly the first [length ol] line groups, the
    [finally] clause closes the files of [out_files], and [main] ends with
    [e] (or the exception of a failing [close]); [error_file] is never
    written. *)
Theorem read_error_ends_run args ol cl e s :
  (forall c, In c cl -> length ol <= length c) ->
  length (zip_lines (ol :: cl)) = length ol /\
  DriverStream.main args (mkIn ol (Some e)) (map clean cl) s =
  let s1 := snd (for_ (zip_lines (ol :: cl)) (process_group args)
                  (snd ((print "Loading resources..." ;; reset_locals ;;
                         print "Processing parallel files...") s))) in
  match close_all s1 with
  | (Ok _, s2) => (Raise e, s2)
  | (Raise e', s2) => (Raise e', s2)
  end.
Proof.
  intros Hc. split; [apply zip_aux_length; [lia | exact Hc]|].
  unfold DriverStream.main, bind, print, reset_locals, try_finally, for_zip.
  cbn [in_lines]. rewrite for_zip_error by (lia || exact Hc).
  unfold zip_lines, bind. simpl.
  match goal with |- context [for_ ?g (process_group args) ?s0] =>
    pose proof (for_groups_ok args g s0) as Hok;
    destruct (for_ g (process_group args) s0) as [r s1] eqn:E end.
  simpl in Hok; subst r. simpl.
  destruct (close_all s1) as [[[]|e'] s2]; reflexivity.
Qed.

End Loop.
End DriverStreamFacts.

Module DriverStreamRuns.
Import Driver DriverSpec Scenario DriverStream.
Local Open Scope string_scope.

(** C7: a run whose [-orig] file raises [UnicodeDecodeError] when its
    second line is read.  Original file: the line ["x"], then a line with
    the byte [0xff]; one corrected file with lines ["R:VERB"; "U:DET"].
    The first line group is processed ([R:VERB] is counted and written);
    reading the second group raises outside the per-group handler, so the
    exception is neither caught nor printed by the driver: the [finally]
    clause closes the [R_VERB] files, [main] ends with the exception, the
    second group ([U:DET]) is never processed and [error_file] is never
    written. *)
Lemma decode_error_aborts_run :
  let r := DriverStream.main args (mkIn ["x"] (Some decode_error))
                             [clean ["R:VERB"; "U:DET"]] (init no_faults) in
  fst r = Raise decode_error /\
  error_count (snd r) = [("R:VERB", 1)] /\
  lookup "out/U_DET/U_DET.m2" (files (snd r)) = None /\
  lookup "error_file" (files (snd r)) = None /\
  stdout (snd r) = ["Loading resources..."; "Processing parallel files..."] /\
  handles (snd r) = [("out/R_VERB/R_VERB.m2", false); ("out/R_VERB/R_VERB.src", false);
                     ("out/R_VERB/R_VERB.trg", false)].
Proof. vm_compute. repeat split; reflexivity. Qed.

(** The hypothesis of [read_error_ends_run] holds for an [-orig] file of
    one line followed by an undecodable one and a [-cor] file of two
    lines. *)
Lemma read_error_ends_run_witness :
  (forall c, In c [["R:VERB"; "U:DET"]] -> length ["x"] <= length c) /\
  length (zip_lines (["x"] :: [["R:VERB"; "U:DET"]])) = length ["x"].
Proof.
  assert (Hc : forall c, In c [["R:VERB"; "U:DET"]] -> length ["x"] <= length c).
  { intros c [<-|[]]; simpl; lia. }
  split; [exact Hc|].
  exact (proj1 (DriverStreamFacts.read_error_ends_run args ["x"] [["R:VERB"; "U:DET"]]
                  decode_error (init no_faults) Hc)).
Defined.
End DriverStreamRuns.
